(** * Resilience decorators of hamidoujand/networking

    Shallow embedding of the stability patterns of the repository
    (Retry, Timeout, Throttle, Breaker and the two Debounce variants)
    and the properties the specification states about them.

    Conventions of the embedding:
    - Go's [int] and [time.Duration] are 64-bit two's complement
      integers: they are [Z] values, and every operation that can leave
      the range is followed by [wrap64].
    - A [time.Time] is a number of nanoseconds ([Z]); [t.Add(d)] is
      [t + d], [t.After(u)] is [u < t] and [t.Before(u)] is [t < u].
    - A Go [error] is a value of [error]; the interface value that may be
      [nil] is [option error].
    - The wrapped call (the effector or circuit) is opaque: what it
      returns is supplied by the environment at every invocation, and
      every embedding reports whether, or how often, it was invoked. *)

From Stdlib Require Import ZArith String List Bool Lia.
From stdpp Require Import base list.
From Equations Require Import Equations.
Import ListNotations.
Local Open Scope string_scope.
Local Open Scope Z_scope.

(** ** Machine integers *)

Module GoInt.

Definition min_int : Z := - 2 ^ 63.
Definition max_int : Z := 2 ^ 63 - 1.

(** The value of a 64-bit two's complement word. *)
Definition wrap64 (z : Z) : Z := (z + 2 ^ 63) mod 2 ^ 64 - 2 ^ 63.

Definition in_range (z : Z) : Prop := min_int <= z <= max_int.

(** [x << n] on a signed 64-bit operand, for a shift count [n >= 0]:
    the bits shifted out are lost. *)
Definition shl64 (x n : Z) : Z := wrap64 (Z.shiftl x n).

End GoInt.

(** ** Errors and results *)

(** The error values the decorators create or pass on. *)
Inductive error : Type :=
| errorString (msg : string)            (* errors.New(msg) *)
| wrapError (msg : string) (err : error) (* fmt.Errorf("...%w", err) *)
| Canceled                               (* context.Canceled *)
| DeadlineExceeded.                      (* context.DeadlineExceeded *)

(** The [Error()] method. *)
Definition Error (e : error) : string :=
  match e with
  | errorString msg => msg
  | wrapError msg _ => msg
  | Canceled => "context canceled"
  | DeadlineExceeded => "context deadline exceeded"
  end.

(** [fmt.Errorf(prefix + "%w", err)]. *)
Definition Errorf_w (prefix : string) (err : error) : error :=
  wrapError (String.append prefix (Error err)) err.

(** [errors.Unwrap]. *)
Definition Unwrap (e : error) : option error :=
  match e with
  | wrapError _ err => Some err
  | _ => None
  end.

(** The pair [(string, error)] every call returns. *)
Definition result : Type := string * option error.

Definition failed (r : result) : bool :=
  match snd r with Some _ => true | None => false end.

(** ** Retry (stablity-patterns/retry/retry.go) *)

Module Retry.

(** What the [select] after a failed attempt observes. *)
Inductive wait_outcome : Type :=
| TimerFired                 (* <-time.After(delay) *)
| CtxDone (err : error).     (* <-ctx.Done(), err = ctx.Err() *)

(** Observable steps of one invocation of the wrapper. *)
Inductive event : Type :=
| Attempt (r : Z)            (* effector(ctx) in iteration r *)
| LogRetry (n : Z)           (* log.Printf("attemp %d failed, ...", n) *)
| Sleep (r : Z).             (* the select of iteration r is entered *)

Record outcome : Type := mkOutcome {
  ret : result;
  trace : list event
}.

Definition is_attempt (e : event) : bool :=
  match e with Attempt _ => true | _ => false end.

Definition is_sleep (e : event) : bool :=
  match e with Sleep _ => true | _ => false end.

(** How often the effector was invoked. *)
Definition calls (o : outcome) : nat :=
  List.length (List.filter is_attempt (trace o)).

(** How often the wrapper started waiting. *)
Definition sleeps (o : outcome) : nat :=
  List.length (List.filter is_sleep (trace o)).

Definition prepend (evs : list event) (o : outcome) : outcome :=
  mkOutcome (ret o) (evs ++ trace o).

Section Loop.

(** [effector r] is what the effector returns when it is invoked in
    iteration [r]; [waits r] is what the select of iteration [r]
    observes. *)
Variable effector : Z -> result.
Variable waits : Z -> wait_outcome.
Variable retries : Z.

(** The body of [for r := 0; ; r++], from iteration [r] on. The
    loop goes round only while [r < retries], so [r + 1] stays
    below the largest int. *)
Equations? loop (r : Z) : outcome by wf (Z.to_nat (retries - r)) lt :=
  loop r with effector r => {
    | (response, None) => mkOutcome (response, None) [Attempt r]
    | (response, Some err) with Z_ge_dec r retries => {
        | left _ => mkOutcome (response, Some err) [Attempt r]
        | right _ with waits r => {
            | TimerFired =>
                prepend [Attempt r; LogRetry (r + 1); Sleep r]
                        (loop (r + 1))
            | CtxDone cerr =>
                mkOutcome ("", Some cerr)
                          [Attempt r; LogRetry (r + 1); Sleep r]
          }
      }
  }.
Proof. lia. Qed.

(** One invocation of the function [Retry(effector, retries, delay)]
    returns. *)
Definition Retry : outcome := loop 0.

End Loop.

End Retry.

(** ** Timeout (stablity-patterns/throttle/throttle.go, package main) *)

Module Timeout.

(** What the goroutine leaves in one of its two buffered channels. *)
Inductive message : Type :=
| OnErrCh (err : error)      (* errCh <- fmt.Errorf("slow: %w", err) *)
| OnResCh (res : string).    (* resCh <- res *)

(** The goroutine: [slow data] is [None] when the slow function never
    returns, and then nothing is ever sent. *)
Definition goroutine (slow : string -> option result) (data : string)
  : option message :=
  match slow data with
  | None => None
  | Some (res, Some err) => Some (OnErrCh (Errorf_w "slow: " err))
  | Some (res, None) => Some (OnResCh res)
  end.

(** The two receive cases of the select. *)
Definition receive (m : message) : result :=
  match m with
  | OnErrCh err => ("", Some err)
  | OnResCh res => (res, None)
  end.

(** One invocation of the function [Timeout(slow)] returns.
    [ctx] is [Some e] when the context ends at some point with
    [ctx.Err() = e] and [None] when it never ends; [slow_first] tells
    which case the select takes when both the goroutine's message and
    [ctx.Done()] become available. The result is [None] when the
    select blocks forever. *)
Definition Timeout (slow : string -> option result) (ctx : option error)
    (slow_first : bool) (data : string) : option result :=
  match goroutine slow data, ctx with
  | Some m, None => Some (receive m)
  | Some m, Some cerr =>
      if slow_first then Some (receive m) else Some ("", Some cerr)
  | None, Some cerr => Some ("", Some cerr)
  | None, None => None
  end.

(** The underlying call completes with [r] before the context ends. *)
Definition completes_first (slow : string -> option result)
    (ctx : option error) (slow_first : bool) (data : string)
    (r : result) : Prop :=
  slow data = Some r /\ (ctx = None \/ slow_first = true).

End Timeout.

(** ** Throttle (stablity-patterns/throttle/throttle.go) *)

Module Throttle.
Import GoInt.

(** The variables the closure captures. [once_done] is the state of
    [sync.Once]; [refilling] tells whether the refill goroutine is
    still in its loop. *)
Record state : Type := mkState {
  tokens : Z;
  once_done : bool;
  refilling : bool
}.

(** [tokens := max] and a fresh [sync.Once]. *)
Definition init (max : Z) : state := mkState max false false.

(** What one invocation of the returned function yields: the pair it
    returns and whether the effector was invoked. *)
Record reply : Type := mkReply {
  returned : result;
  invoked : bool
}.

(** [once.Do(...)]: the first time, the ticker and the goroutine are
    created. *)
Definition once_do (st : state) : state :=
  if once_done st then st else mkState (tokens st) true true.

(** The part both versions share, from the test of [tokens] on. *)
Definition take_token (msg : string) (st : state) (res : result)
  : state * reply :=
  if tokens st <=? 0
  then (st, mkReply ("", Some (errorString msg)) false)
  else (mkState (tokens st - 1) (once_done st) (refilling st),
        mkReply res true).

(** The function the package-main [Throttle] returns (lines 20-54).
    [ctx_err] is [ctx.Err()] at entry (it is not looked at), [res] is
    what the effector returns if it is invoked. *)
Definition Throttle_main (st : state) (ctx_err : option error)
    (res : result) : state * reply :=
  take_token "too many calls" (once_do st) res.

(** The function the package-throttle [Throttle] returns
    (lines 94-132). *)
Definition Throttle (st : state) (ctx_err : option error)
    (res : result) : state * reply :=
  match ctx_err with
  | Some cerr => (st, mkReply ("", Some cerr) false)
  | None => take_token "to many fn calls" (once_do st) res
  end.

(** One tick of the refill goroutine: [case <-ticker.C]. *)
Definition refill_tick (max refill : Z) (st : state) : state :=
  if refilling st then
    let t := wrap64 (tokens st + refill) in
    let t := if t >? max then max else t in
    mkState t (once_done st) (refilling st)
  else st.

(** The goroutine's [case <-ctx.Done(): return]. *)
Definition refill_stop (st : state) : state :=
  mkState (tokens st) (once_done st) false.

(** What happens to a throttled function, in order. *)
Inductive event : Type :=
| Invoke (ctx_err : option error) (res : result)
| Tick
| RefillerDone.

Section Run.

Variable closure : state -> option error -> result -> state * reply.
Variables max refill : Z.

(** A history in which nothing overlaps: every invocation and every
    tick is over before the next event begins. What the unguarded
    accesses to [tokens] allow when they interleave is the subject of
    [ThrottleSteps] below. *)
Fixpoint run (st : state) (evs : list event) : state * list reply :=
  match evs with
  | [] => (st, [])
  | Invoke ctx_err res :: evs =>
      let '(st1, rep) := closure st ctx_err res in
      let '(st2, reps) := run st1 evs in
      (st2, rep :: reps)
  | Tick :: evs => run (refill_tick max refill st) evs
  | RefillerDone :: evs => run (refill_stop st) evs
  end.

End Run.

(** How many replies come from an invocation of the effector. *)
Definition invocations (reps : list reply) : nat :=
  List.length (List.filter invoked reps).

(** The reply of a rejected invocation. *)
Definition rate_limited (msg : string) : reply :=
  mkReply ("", Some (errorString msg)) false.

(** No invocation of the history comes with a cancelled context. *)
Definition live_only (evs : list event) : Prop :=
  List.Forall (fun ev => match ev with
                         | Invoke (Some _) _ => False
                         | _ => True
                         end) evs.

(** Two replies that differ in the text of the rate-limit error only. *)
Definition same_but_message (rep rep' : reply) : Prop :=
  invoked rep = invoked rep' /\
  if invoked rep then returned rep = returned rep'
  else returned rep = ("", Some (errorString "to many fn calls")) /\
       returned rep' = ("", Some (errorString "too many calls")).

End Throttle.

(** ** Breaker (stablity-patterns/throttle/throttle.go, package main) *)

Module Breaker.
Import GoInt.

(** The variables the closure captures. *)
Record state : Type := mkState {
  consecutiveFailures : Z;
  lastAttempt : Z
}.

(** [consecutiveFailures := 0; lastAttempt := time.Now()]. *)
Definition init (now : Z) : state := mkState 0 now.

Definition Second : Z := 1000000000.

(** [time.Second * 2 << d], a [time.Duration]. *)
Definition backoff (d : Z) : Z := shl64 (Second * 2) d.

Record reply : Type := mkReply {
  returned : result;
  invoked : bool
}.

Definition unreachable : result :=
  ("", Some (errorString "service unreachable")).

(** The first critical section (lines 277-292): [true] when the call
    is rejected. [now] is [time.Now()] of line 285. *)
Definition rejects (failureThreshold : Z) (st : state) (now : Z)
  : bool :=
  let d := wrap64 (consecutiveFailures st - failureThreshold) in
  (d >=? 0) && negb (now >? lastAttempt st + backoff d).

(** The second critical section (lines 296-306), after the circuit
    returned [res]; [now] is [time.Now()] of line 298. *)
Definition record_attempt (st : state) (res : result) (now : Z)
  : state * result :=
  match snd res with
  | Some err =>
      (mkState (wrap64 (consecutiveFailures st + 1)) now,
       (fst res, Some err))
  | None => (mkState 0 now, (fst res, None))
  end.

(** One invocation of the function [Breaker(circuit, failureThreshold)]
    returns: [now] is the clock at the check, [res] what the circuit
    returns if it is invoked and [now'] the clock after it returned. *)
Definition Breaker (failureThreshold : Z) (st : state)
    (now : Z) (res : result) (now' : Z) : state * reply :=
  if rejects failureThreshold st now
  then (st, mkReply unreachable false)
  else let '(st', r) := record_attempt st res now' in
       (st', mkReply r true).

(** A sequence of invocations, each with its two clock readings and
    the circuit's answer. *)
Fixpoint run (failureThreshold : Z) (st : state)
    (calls : list (Z * result * Z)) : state * list reply :=
  match calls with
  | [] => (st, [])
  | (now, res, now') :: calls =>
      let '(st1, rep) := Breaker failureThreshold st now res now' in
      let '(st2, reps) := run failureThreshold st1 calls in
      (st2, rep :: reps)
  end.

(** The breaker after [n] more failing calls, each made one
    nanosecond after the backoff of the call before it has run out. *)
Fixpoint fail_repeatedly (failureThreshold : Z) (n : nat) (st : state)
  : state :=
  match n with
  | O => st
  | S n =>
      let d := wrap64 (consecutiveFailures st - failureThreshold) in
      let now := lastAttempt st + Z.max 0 (backoff d) + 1 in
      fail_repeatedly failureThreshold n
        (fst (Breaker failureThreshold st now
                      ("", Some (errorString "down")) now))
  end.

End Breaker.

(** ** Debounce, first version (DebounceVersion1) *)

Module Debounce1.

(** The variables the closure captures. *)
Record state : Type := mkState {
  threshold : Z;
  result_ : string;
  err : option error
}.

(** [var threshold time.Time; var result string; var err error]:
    the zero time precedes every reading of the clock. *)
Definition init : state := mkState 0 "" None.

Record reply : Type := mkReply {
  returned : result;
  invoked : bool
}.

(** One invocation of the function [DebounceVersion1(circuit, d)]
    returns. [now] is [time.Now()] of line 48, [res] what the circuit
    returns if it is invoked, and [now'] is [time.Now()] in the
    deferred function (line 43), which runs on both return paths. *)
Definition DebounceVersion1 (d : Z) (st : state)
    (now : Z) (res : result) (now' : Z) : state * reply :=
  if now <? threshold st
  then (mkState (now' + d) (result_ st) (err st),
        mkReply (result_ st, err st) false)
  else (mkState (now' + d) (fst res) (snd res),
        mkReply res true).

Fixpoint run (d : Z) (st : state) (calls : list (Z * result * Z))
  : state * list reply :=
  match calls with
  | [] => (st, [])
  | (now, res, now') :: calls =>
      let '(st1, rep) := DebounceVersion1 d st now res now' in
      let '(st2, reps) := run d st1 calls in
      (st2, rep :: reps)
  end.

(** A millisecond, as a [time.Duration]. *)
Definition ms : Z := 1000000.

(** A burst: every call comes before the cooldown that the call before
    it has restarted is over ([thr] is the threshold the first call
    finds). *)
Fixpoint burst (d thr : Z) (calls : list (Z * result * Z)) : Prop :=
  match calls with
  | [] => True
  | (now, _, now') :: calls => now < thr /\ burst d (now' + d) calls
  end.

(** Spaced calls: every call comes when the cooldown restarted by the
    call before it is over. *)
Fixpoint spaced (d thr : Z) (calls : list (Z * result * Z)) : Prop :=
  match calls with
  | [] => True
  | (now, _, now') :: calls => thr <= now /\ spaced d (now' + d) calls
  end.

End Debounce1.

(** ** Debounce, second version (DebounceVersion2)

    The returned function takes the mutex [m], runs the polling loop
    inside [once.Do] on the calling goroutine and starts a second
    goroutine that takes [m] too, so the embedding is a small-step
    machine over the shared variables, the callers and the goroutines
    they start. *)

Module Debounce2.

(** Where a caller of the returned function stands (line of its next
    statement). *)
Inductive caller_pc : Type :=
| cLock                      (* 75: m.Lock() *)
| cSetThreshold              (* 79: threshold = time.Now().Add(d) *)
| cOnce                      (* 81: once.Do(func() { *)
| cNewTicker                 (* 82: ticker = time.NewTicker(...) *)
| cSpawn                     (* 84: go func() { ... }() *)
| cSelect                    (* 93-94: for { select { *)
| cTickLock                  (* 96: m.Lock() *)
| cTickCheck                 (* 97: if time.Now().After(threshold) *)
| cTickCall                  (* 98: result, err = circuit(ctx) *)
| cTickUnlockReturn          (* 99-100: m.Unlock(); return *)
| cTickUnlock                (* 102: m.Unlock() *)
| cDoneLock (cerr : error)   (* 104: m.Lock() *)
| cDoneStore (cerr : error)  (* 105: result, err = "", ctx.Err() *)
| cDoneUnlock                (* 106-107: m.Unlock(); return *)
| cOnceExit                  (* 110: }) the Once is marked done *)
| cReturn                    (* 111: return result, err *)
| cDeferUnlock (r : result)  (* 76: the deferred m.Unlock() *)
| cReturned (r : result)     (* the caller has its answer *)
| cPanicked.                 (* unlock of an unlocked mutex *)

(** Where the goroutine of lines 84-91 stands. *)
Inductive goroutine_pc : Type :=
| gLock                      (* 85: m.Lock() *)
| gStop                      (* 87: ticker.Stop() *)
| gResetOnce                 (* 88: once = sync.Once{} *)
| gUnlock                    (* 90: m.Unlock() *)
| gExit.

Record state : Type := mkState {
  mu : bool;                     (* m is locked *)
  threshold : Z;
  ticking : bool;                (* a ticker exists and is not stopped *)
  result_ : string;
  err : option error;
  once_done : bool;
  executed : nat;                (* invocations of circuit so far *)
  callers : list caller_pc;
  goroutines : list goroutine_pc
}.

(** [n] invocations of the returned function are about to start;
    [now] is the clock when [DebounceVersion2] was called. *)
Definition init (now : Z) (n : nat) : state :=
  mkState false now false "" None false 0 (replicate n cLock) [].

(** What the select of a caller receives. *)
Inductive select_case : Type :=
| Tick                       (* <-ticker.C *)
| Done (cerr : error).       (* <-ctx.Done(), cerr = ctx.Err() *)

(** What the environment supplies to a step of a caller: the clock,
    the case its select takes and what the circuit returns. *)
Record env : Type := mkEnv {
  now : Z;
  chosen : select_case;
  circuit : result
}.

Inductive label : Type :=
| CallerStep (i : nat) (e : env)
| GoroutineStep (j : nat).

Definition set_caller (i : nat) (pc : caller_pc) (s : state) : state :=
  mkState (mu s) (threshold s) (ticking s) (result_ s) (err s)
          (once_done s) (executed s) (<[i := pc]> (callers s))
          (goroutines s).

Definition set_goroutine (j : nat) (pc : goroutine_pc) (s : state)
  : state :=
  mkState (mu s) (threshold s) (ticking s) (result_ s) (err s)
          (once_done s) (executed s) (callers s)
          (<[j := pc]> (goroutines s)).

Definition set_mu (b : bool) (s : state) : state :=
  mkState b (threshold s) (ticking s) (result_ s) (err s)
          (once_done s) (executed s) (callers s) (goroutines s).

Definition set_threshold (t : Z) (s : state) : state :=
  mkState (mu s) t (ticking s) (result_ s) (err s)
          (once_done s) (executed s) (callers s) (goroutines s).

Definition set_ticking (b : bool) (s : state) : state :=
  mkState (mu s) (threshold s) b (result_ s) (err s)
          (once_done s) (executed s) (callers s) (goroutines s).

Definition set_cache (r : result) (s : state) : state :=
  mkState (mu s) (threshold s) (ticking s) (fst r) (snd r)
          (once_done s) (executed s) (callers s) (goroutines s).

Definition set_once (b : bool) (s : state) : state :=
  mkState (mu s) (threshold s) (ticking s) (result_ s) (err s)
          b (executed s) (callers s) (goroutines s).

Definition count_execution (s : state) : state :=
  mkState (mu s) (threshold s) (ticking s) (result_ s) (err s)
          (once_done s) (S (executed s)) (callers s) (goroutines s).

Definition spawn (s : state) : state :=
  mkState (mu s) (threshold s) (ticking s) (result_ s) (err s)
          (once_done s) (executed s) (callers s)
          (goroutines s ++ [gLock]).

(** [m.Lock()] by caller [i]: possible only while [m] is free. *)
Definition lock_caller (i : nat) (next : caller_pc) (s : state)
  : option state :=
  if mu s then None else Some (set_caller i next (set_mu true s)).

(** The function [DebounceVersion2(circuit, d)] returns, one
    statement at a time: the next statement of caller [i], standing at
    [pc]. [None]: the caller cannot move (it is blocked, or has
    finished). *)
Definition DebounceVersion2 (d : Z) (i : nat) (e : env) (pc : caller_pc)
    (s : state) : option state :=
  match pc with
  | cLock => lock_caller i cSetThreshold s
  | cSetThreshold =>
      Some (set_caller i cOnce (set_threshold (now e + d) s))
  | cOnce =>
      Some (set_caller i (if once_done s then cReturn else cNewTicker) s)
  | cNewTicker => Some (set_caller i cSpawn (set_ticking true s))
  | cSpawn => Some (set_caller i cSelect (spawn s))
  | cSelect =>
      match chosen e with
      | Tick => if ticking s then Some (set_caller i cTickLock s)
                else None
      | Done cerr => Some (set_caller i (cDoneLock cerr) s)
      end
  | cTickLock => lock_caller i cTickCheck s
  | cTickCheck =>
      Some (set_caller i (if now e >? threshold s then cTickCall
                          else cTickUnlock) s)
  | cTickCall =>
      Some (set_caller i cTickUnlockReturn
              (count_execution (set_cache (circuit e) s)))
  | cTickUnlockReturn => Some (set_caller i cOnceExit (set_mu false s))
  | cTickUnlock => Some (set_caller i cSelect (set_mu false s))
  | cDoneLock cerr => lock_caller i (cDoneStore cerr) s
  | cDoneStore cerr =>
      Some (set_caller i cDoneUnlock (set_cache ("", Some cerr) s))
  | cDoneUnlock => Some (set_caller i cOnceExit (set_mu false s))
  | cOnceExit => Some (set_caller i cReturn (set_once true s))
  | cReturn => Some (set_caller i (cDeferUnlock (result_ s, err s)) s)
  | cDeferUnlock r =>
      if mu s then Some (set_caller i (cReturned r) (set_mu false s))
      else Some (set_caller i cPanicked s)
  | cReturned _ => None
  | cPanicked => None
  end.

(** One statement of goroutine [j], standing at [pc]. *)
Definition goroutine_step (j : nat) (pc : goroutine_pc) (s : state)
  : option state :=
  match pc with
  | gLock =>
      if mu s then None else Some (set_goroutine j gStop (set_mu true s))
  | gStop => Some (set_goroutine j gResetOnce (set_ticking false s))
  | gResetOnce => Some (set_goroutine j gUnlock (set_once false s))
  | gUnlock => Some (set_goroutine j gExit (set_mu false s))
  | gExit => None
  end.

Definition step (d : Z) (l : label) (s : state) : option state :=
  match l with
  | CallerStep i e =>
      match callers s !! i with
      | Some pc => DebounceVersion2 d i e pc s
      | None => None
      end
  | GoroutineStep j =>
      match goroutines s !! j with
      | Some pc => goroutine_step j pc s
      | None => None
      end
  end.

(** A schedule, run from [s]; [None] when one of its steps is not
    possible. *)
Fixpoint run (d : Z) (ls : list label) (s : state) : option state :=
  match ls with
  | [] => Some s
  | l :: ls =>
      match step d l s with
      | Some s' => run d ls s'
      | None => None
      end
  end.

Definition reachable (d : Z) (s0 s : state) : Prop :=
  exists ls, run d ls s0 = Some s.

Definition has_returned (pc : caller_pc) : bool :=
  match pc with cReturned _ => true | _ => false end.

(** No thread of [s] can take a step, whatever the environment does. *)
Definition stuck (d : Z) (s : state) : Prop :=
  forall l, step d l s = None.

(** The statements a caller can stand at between the [m.Lock()] of
    line 75 and the next [m.Lock()] it runs into. *)
Definition holding (pc : caller_pc) : Prop :=
  match pc with
  | cSetThreshold | cOnce | cNewTicker | cSpawn | cSelect
  | cTickLock | cDoneLock _ => True
  | _ => False
  end.

(** Nobody has taken [m] yet. *)
Definition idle (s : state) : Prop :=
  mu s = false /\ once_done s = false /\ executed s = 0%nat /\
  goroutines s = [] /\
  forall i pc, callers s !! i = Some pc -> pc = cLock.

(** Caller [i] has taken [m] at line 75 and still has it; everybody
    else waits for it. *)
Definition seized (s : state) : Prop :=
  mu s = true /\ once_done s = false /\ executed s = 0%nat /\
  (forall j pc, goroutines s !! j = Some pc -> pc = gLock) /\
  exists i pc,
    callers s !! i = Some pc /\ holding pc /\
    forall j pc', j <> i -> callers s !! j = Some pc' -> pc' = cLock.

Definition inv (s : state) : Prop := idle s \/ seized s.

(** The first invocation under a context that never ends, followed
    to its first tick. *)
Definition first_tick_schedule : list label :=
  let e := mkEnv 0 Tick ("fresh", None) in
  [CallerStep 0 e;      (* 75: m.Lock() *)
   CallerStep 0 e;      (* 79: threshold = now + d *)
   CallerStep 0 e;      (* 81: once.Do *)
   CallerStep 0 e;      (* 82: NewTicker *)
   CallerStep 0 e;      (* 84: go func *)
   CallerStep 0 e].     (* 94-95: case <-ticker.C *)

(** Where that schedule leads with a cooldown of 100ns. *)
Definition deadlocked : state :=
  mkState true 100 true "" None false 0 [cTickLock] [gLock].

(** How many statements a caller that holds [m] can still execute
    before it needs [m] again. *)
Definition rank (pc : caller_pc) : nat :=
  match pc with
  | cSetThreshold => 5
  | cOnce => 4
  | cNewTicker => 3
  | cSpawn => 2
  | cSelect => 1
  | _ => 0
  end.

(** How many statements the whole system can still execute: six while
    [m] is free, the rank of its holder afterwards. *)
Definition steps_left (s : state) : nat :=
  if mu s then sum_list (rank <$> callers s) else 6.

(** The ticker and the clean-up goroutine exist from lines 82 and 84
    on, and the goroutine has not moved. *)
Definition leaking (s : state) : Prop :=
  ticking s = mu s && (steps_left s <=? 2)%nat /\
  goroutines s = if mu s && (steps_left s <=? 1)%nat then [gLock] else [].

End Debounce2.

(** ** Throttle, statement by statement

    Neither version of [Throttle] guards [tokens]: the returned
    function tests it and decrements it, and the refill goroutine reads
    it and writes it, with no lock. [Throttle.run] above takes each
    invocation and each tick as a whole, which is what happens when
    nothing overlaps. The machine below takes the accesses to [tokens]
    one at a time, for any number of invocations that may overlap each
    other and the refill. *)

Module ThrottleSteps.
Import GoInt.

Inductive version : Type :=
| PackageThrottle            (* lines 88-133 *)
| PackageMain.               (* lines 13-55 *)

Definition rate_limit_message (v : version) : string :=
  match v with
  | PackageThrottle => "to many fn calls"
  | PackageMain => "too many calls"
  end.

(** Where an invocation of the returned function stands (lines of the
    package-throttle version / of the package-main version). *)
Inductive caller_pc : Type :=
| tStart                     (* 94-96 / 20: not entered yet *)
| tOnce                      (* 102 / 22: once.Do(...) *)
| tTest                      (* 127 / 47: if tokens <= 0 *)
| tLoad                      (* 130 / 51: tokens--, its read *)
| tStore (v : Z)             (* 130 / 51: tokens--, its write of v - 1 *)
| tCall                      (* 131 / 53: return effector(ctx) *)
| tReturned (r : result).

(** Where the refill goroutine stands. *)
Inductive refiller_pc : Type :=
| rNone                      (* not started *)
| rSelect                    (* 110 / 31: select *)
| rWrite (t : Z)             (* 121 / 41: tokens = t, after the read of
                                115 / 36 and the cap of 117 / 37 *)
| rExited.                   (* 112 / 33: return *)

Record state : Type := mkState {
  tokens : Z;
  once_done : bool;
  refiller : refiller_pc;
  invoked : nat;               (* invocations of the effector so far *)
  written : nat;               (* writes of the refill goroutine so far *)
  callers : list caller_pc
}.

(** [tokens := max], a fresh Once, and [n] invocations to come. *)
Definition init (max : Z) (n : nat) : state :=
  mkState max false rNone 0 0 (replicate n tStart).

Inductive label : Type :=
| CallerStep (i : nat) (ctx_err : option error) (res : result)
| RefillerTick               (* case <-ticker.C, up to the read *)
| RefillerWrite              (* tokens = t *)
| RefillerDone.              (* case <-ctx.Done() *)

Definition set_caller (i : nat) (pc : caller_pc) (s : state) : state :=
  mkState (tokens s) (once_done s) (refiller s) (invoked s) (written s)
          (<[i := pc]> (callers s)).

Definition set_tokens (t : Z) (s : state) : state :=
  mkState t (once_done s) (refiller s) (invoked s) (written s)
          (callers s).

Definition set_refiller (r : refiller_pc) (s : state) : state :=
  mkState (tokens s) (once_done s) r (invoked s) (written s) (callers s).

(** [once.Do]: the first time, the ticker and the goroutine are
    created. *)
Definition once_do (s : state) : state :=
  if once_done s then s
  else mkState (tokens s) true rSelect (invoked s) (written s)
               (callers s).

Definition count_invocation (s : state) : state :=
  mkState (tokens s) (once_done s) (refiller s) (S (invoked s))
          (written s) (callers s).

Definition count_write (s : state) : state :=
  mkState (tokens s) (once_done s) (refiller s) (invoked s)
          (S (written s)) (callers s).

(** The next statement of invocation [i], standing at [pc]; [ctx_err]
    is [ctx.Err()] at entry and [res] what the effector returns. *)
Definition caller_step (v : version) (i : nat) (ctx_err : option error)
    (res : result) (pc : caller_pc) (s : state) : option state :=
  match pc with
  | tStart =>
      match v, ctx_err with
      | PackageThrottle, Some cerr =>
          Some (set_caller i (tReturned ("", Some cerr)) s)
      | _, _ => Some (set_caller i tOnce s)
      end
  | tOnce => Some (set_caller i tTest (once_do s))
  | tTest =>
      if tokens s <=? 0
      then Some (set_caller i
                   (tReturned ("", Some (errorString
                                           (rate_limit_message v)))) s)
      else Some (set_caller i tLoad s)
  | tLoad => Some (set_caller i (tStore (tokens s)) s)
  | tStore t => Some (set_caller i tCall (set_tokens (wrap64 (t - 1)) s))
  | tCall => Some (set_caller i (tReturned res) (count_invocation s))
  | tReturned _ => None
  end.

(** The next statement of the refill goroutine. *)
Definition refiller_step (max refill : Z) (l : label) (s : state)
  : option state :=
  match refiller s, l with
  | rSelect, RefillerTick =>
      let t := wrap64 (tokens s + refill) in
      let t := if t >? max then max else t in
      Some (set_refiller (rWrite t) s)
  | rSelect, RefillerDone => Some (set_refiller rExited s)
  | rWrite t, RefillerWrite =>
      Some (set_refiller rSelect (count_write (set_tokens t s)))
  | _, _ => None
  end.

Section Machine.

Variable v : version.
Variables max refill : Z.

Definition step (l : label) (s : state) : option state :=
  match l with
  | CallerStep i ctx_err res =>
      match callers s !! i with
      | Some pc => caller_step v i ctx_err res pc s
      | None => None
      end
  | _ => refiller_step max refill l s
  end.

Fixpoint run (ls : list label) (s : state) : option state :=
  match ls with
  | [] => Some s
  | l :: ls =>
      match step l s with
      | Some s' => run ls s'
      | None => None
      end
  end.

(** An invocation is in flight from its first statement to its
    return. *)
Definition in_flight (pc : caller_pc) : bool :=
  match pc with
  | tStart | tReturned _ => false
  | _ => true
  end.

(** No invocation is in flight. *)
Definition quiet (s : state) : bool :=
  forallb (fun pc => negb (in_flight pc)) (callers s).

(** The step does not let an invocation start while another one is in
    flight. *)
Definition no_overlap (l : label) (s : state) : bool :=
  match l with
  | CallerStep i _ _ =>
      match callers s !! i with
      | Some tStart => quiet s
      | _ => true
      end
  | _ => true
  end.

(** The schedule, run from [s], never has two invocations in flight:
    the invocations come one after the other, while the refill
    goroutine takes its steps at any time between theirs. *)
Fixpoint sequential (ls : list label) (s : state) : bool :=
  match ls with
  | [] => true
  | l :: ls =>
      no_overlap l s &&
      match step l s with
      | Some s' => sequential ls s'
      | None => true
      end
  end.

End Machine.

(** What an invocation in flight knows about [tokens]. *)
Definition caller_ok (s : state) (pc : caller_pc) : Prop :=
  match pc with
  | tLoad => 1 <= tokens s
  | tStore t => 1 <= t <= tokens s
  | _ => True
  end.

(** The invocation has taken its token and not yet invoked the
    effector. *)
Definition pend (pc : caller_pc) : Z :=
  match pc with tCall => 1 | _ => 0 end.

(** At most one invocation is in flight, and [P] holds of it. *)
Definition solo (s : state) (P : option caller_pc -> Prop) : Prop :=
  (quiet s = true /\ P None) \/
  (exists i pc,
     callers s !! i = Some pc /\ in_flight pc = true /\
     (forall j q, j <> i -> callers s !! j = Some q ->
                  in_flight q = false) /\
     P (Some pc)).

(** What holds of [tokens] as long as invocations do not overlap:
    [budget] bounds the invocations made and the tokens left. *)
Definition accounted (s : state) (budget : Z) (o : option caller_pc)
  : Prop :=
  match o with
  | None => Z.of_nat (invoked s) + tokens s <= budget
  | Some pc =>
      caller_ok s pc /\
      Z.of_nat (invoked s) + pend pc + tokens s <= budget
  end.

Definition inv (max : Z) (s : state) : Prop :=
  0 <= tokens s <= max /\
  match refiller s with
  | rWrite t => tokens s <= t <= max
  | _ => True
  end /\
  solo s (accounted s (max * (1 + Z.of_nat (written s)))).

(** The refill goroutine has returned and cannot come back. *)
Definition dry (s : state) : Prop :=
  once_done s = true /\ refiller s = rExited.

(** The statements of one invocation with nothing in between: six
    when it gets a token. *)
Definition whole_invocation (i : nat) (ctx_err : option error)
    (res : result) : list label :=
  replicate 6 (CallerStep i ctx_err res).

(** A history of six invocations, one after the other, of a throttle
    with [max = 3]: the refill goroutine reads [tokens] while the first
    invocation is at line 127 and writes after the third one has
    returned. *)
Definition tick_across_three_calls : list label :=
  let ok := ("ok", @None error) in
  [CallerStep 0 None ok; CallerStep 0 None ok; RefillerTick;
   CallerStep 0 None ok; CallerStep 0 None ok; CallerStep 0 None ok;
   CallerStep 0 None ok]
  ++ whole_invocation 1 None ok ++ whole_invocation 2 None ok
  ++ [RefillerWrite]
  ++ whole_invocation 3 None ok ++ whole_invocation 4 None ok
  ++ whole_invocation 5 None ok.

(** Two invocations that overlap: both test [tokens] before either
    takes its token. *)
Definition two_callers_overlap : list label :=
  let ok := ("ok", @None error) in
  [CallerStep 0 None ok; CallerStep 0 None ok; CallerStep 0 None ok;
   CallerStep 1 None ok; CallerStep 1 None ok; CallerStep 1 None ok;
   CallerStep 0 None ok; CallerStep 1 None ok;
   CallerStep 0 None ok; CallerStep 1 None ok;
   CallerStep 0 None ok; CallerStep 1 None ok].

End ThrottleSteps.

(** * Properties *)

(** ** Machine integers *)

Module GoIntFacts.
Import GoInt.

Lemma wrap64_id z : in_range z -> wrap64 z = z.
Proof.
  unfold in_range, min_int, max_int, wrap64. intros Hz.
  rewrite Z.mod_small; lia.
Qed.

Lemma wrap64_range z : in_range (wrap64 z).
Proof.
  unfold in_range, min_int, max_int, wrap64.
  pose proof (Z.mod_pos_bound (z + 2 ^ 63) (2 ^ 64) ltac:(lia)). lia.
Qed.

End GoIntFacts.

(** ** Retry *)

Module RetryFacts.
Import Retry.

Section Unfold.

Variable effector : Z -> result.
Variable waits : Z -> wait_outcome.
Variable retries : Z.

Lemma loop_success r v :
  effector r = (v, None) ->
  loop effector waits retries r = mkOutcome (v, None) [Attempt r].
Proof. intros E. simp loop. rewrite E. reflexivity. Qed.

Lemma loop_last r v e :
  effector r = (v, Some e) -> r >= retries ->
  loop effector waits retries r = mkOutcome (v, Some e) [Attempt r].
Proof.
  intros E Hr. simp loop. rewrite E. simpl.
  destruct (Z_ge_dec r retries); [reflexivity | lia].
Qed.

Lemma loop_again r v e :
  effector r = (v, Some e) -> r < retries -> waits r = TimerFired ->
  loop effector waits retries r
  = prepend [Attempt r; LogRetry (r + 1); Sleep r]
            (loop effector waits retries (r + 1)).
Proof.
  intros E Hr W. rewrite loop_equation_1. rewrite E. simpl.
  destruct (Z_ge_dec r retries); [lia |]. simpl. rewrite W.
  reflexivity.
Qed.

Lemma loop_cancelled r v e cerr :
  effector r = (v, Some e) -> r < retries -> waits r = CtxDone cerr ->
  loop effector waits retries r
  = mkOutcome ("", Some cerr) [Attempt r; LogRetry (r + 1); Sleep r].
Proof.
  intros E Hr W. rewrite loop_equation_1. rewrite E. simpl.
  destruct (Z_ge_dec r retries); [lia |]. simpl. rewrite W.
  reflexivity.
Qed.

End Unfold.

Lemma failed_inv (x : result) :
  failed x = true -> exists v e, x = (v, Some e).
Proof.
  destruct x as [v [e|]]; unfold failed; simpl; [eauto | discriminate].
Qed.

Lemma calls_prepend evs o :
  calls (prepend evs o)
  = (List.length (List.filter is_attempt evs) + calls o)%nat.
Proof.
  unfold calls, prepend. simpl.
  rewrite List.filter_app, List.length_app. reflexivity.
Qed.

Lemma sleeps_prepend evs o :
  sleeps (prepend evs o)
  = (List.length (List.filter is_sleep evs) + sleeps o)%nat.
Proof.
  unfold sleeps, prepend. simpl.
  rewrite List.filter_app, List.length_app. reflexivity.
Qed.

(** The loop entered at iteration [n - k] with [k] retries left, when
    every remaining attempt fails and every remaining wait is ended by
    the timer. *)
Lemma loop_all_fail effector waits n (k : nat) :
  Z.of_nat k <= n ->
  (forall r, n - Z.of_nat k <= r <= n -> failed (effector r) = true) ->
  (forall r, n - Z.of_nat k <= r < n -> waits r = TimerFired) ->
  calls (loop effector waits n (n - Z.of_nat k)) = S k /\
  sleeps (loop effector waits n (n - Z.of_nat k)) = k /\
  ret (loop effector waits n (n - Z.of_nat k)) = effector n.
Proof.
  induction k as [|k IH]; intros Hk Hfail Hwait.
  - replace (n - Z.of_nat 0) with n by lia.
    destruct (failed_inv (effector n)) as (v & e & E);
      [apply Hfail; lia |].
    rewrite (loop_last _ _ _ _ _ _ E) by lia. rewrite E. auto.
  - destruct (failed_inv (effector (n - Z.of_nat (S k))))
      as (v & e & E); [apply Hfail; lia |].
    rewrite (loop_again _ _ _ _ _ _ E) by (try apply Hwait; lia).
    replace (n - Z.of_nat (S k) + 1) with (n - Z.of_nat k) by lia.
    destruct IH as (IH1 & IH2 & IH3);
      [lia | intros; apply Hfail; lia | intros; apply Hwait; lia |].
    rewrite calls_prepend, sleeps_prepend, IH1, IH2. simpl.
    auto.
Qed.

(** The loop entered at iteration [k - j], when the attempts up to
    [k] fail, the waits before [k] are ended by the timer and the
    wait of iteration [k] is ended by the context. *)
Lemma loop_cancel_at effector waits retries k cerr (j : nat) :
  k < retries ->
  (forall r, k - Z.of_nat j <= r <= k -> failed (effector r) = true) ->
  (forall r, k - Z.of_nat j <= r < k -> waits r = TimerFired) ->
  waits k = CtxDone cerr ->
  ret (loop effector waits retries (k - Z.of_nat j))
    = ("", Some cerr) /\
  calls (loop effector waits retries (k - Z.of_nat j)) = S j /\
  List.last (trace (loop effector waits retries (k - Z.of_nat j)))
            (Attempt 0) = Sleep k.
Proof.
  induction j as [|j IH]; intros Hk Hfail Hwait Hc.
  - replace (k - Z.of_nat 0) with k by lia.
    destruct (failed_inv (effector k)) as (v & e & E);
      [apply Hfail; lia |].
    rewrite (loop_cancelled _ _ _ _ _ _ _ E Hk Hc). auto.
  - destruct (failed_inv (effector (k - Z.of_nat (S j))))
      as (v & e & E); [apply Hfail; lia |].
    rewrite (loop_again _ _ _ _ _ _ E) by (try apply Hwait; lia).
    replace (k - Z.of_nat (S j) + 1) with (k - Z.of_nat j) by lia.
    destruct IH as (IH1 & IH2 & IH3);
      [lia | intros; apply Hfail; lia | intros; apply Hwait; lia
      | assumption |].
    rewrite calls_prepend, IH2. repeat split; auto.
    unfold prepend. cbn [trace].
    destruct (trace (loop effector waits retries (k - Z.of_nat j)))
      as [|ev evs] eqn:Et; [discriminate IH3 |].
    exact IH3.
Qed.

(** C4, as the code has it. A call that fails on every attempt, run
    with [retries = n >= 0] under a context that does not end during
    any of the waits between attempts, is invoked exactly [n + 1]
    times, the wrapper waits [n] times, and it returns what the last
    attempt returned, value and error. *)
Theorem retry_exhausts_attempts (effector : Z -> result)
    (waits : Z -> wait_outcome) (n : Z) :
  0 <= n ->
  (forall r, 0 <= r <= n -> failed (effector r) = true) ->
  (forall r, 0 <= r < n -> waits r = TimerFired) ->
  calls (Retry effector waits n) = Z.to_nat (n + 1) /\
  sleeps (Retry effector waits n) = Z.to_nat n /\
  ret (Retry effector waits n) = effector n.
Proof.
  intros Hn Hfail Hwait. unfold Retry.
  pose proof (loop_all_fail effector waits n (Z.to_nat n)) as L.
  rewrite Z2Nat.id in L by lia. replace (n - n) with 0 in L by lia.
  replace (Z.to_nat (n + 1)) with (S (Z.to_nat n)) by lia.
  apply L; [lia | assumption | assumption].
Qed.

Lemma retry_exhausts_attempts_witness :
  calls (Retry (fun _ => ("", Some (errorString "down")))
               (fun _ => TimerFired) 2) = 3%nat /\
  sleeps (Retry (fun _ => ("", Some (errorString "down")))
                (fun _ => TimerFired) 2) = 2%nat /\
  ret (Retry (fun _ => ("", Some (errorString "down")))
             (fun _ => TimerFired) 2)
    = ("", Some (errorString "down")).
Proof.
  apply (retry_exhausts_attempts
           (fun _ => ("", Some (errorString "down")))
           (fun _ => TimerFired) 2);
    [lia | reflexivity | reflexivity].
Defined.

(** C4 as stated fails: with [retries = 1] and a call that always
    fails, a context that is cancelled during the first wait makes the
    wrapper stop after one invocation, with the context's error. *)
Lemma retry_always_failing_cancelled :
  let effector := fun _ : Z => ("", Some (errorString "down")) in
  let waits := fun _ : Z => CtxDone Canceled in
  (forall r, failed (effector r) = true) /\
  calls (Retry effector waits 1) = 1%nat /\
  calls (Retry effector waits 1) <> Z.to_nat (1 + 1) /\
  ret (Retry effector waits 1) = ("", Some Canceled) /\
  ret (Retry effector waits 1) <> effector 1.
Proof.
  cbv zeta. repeat split; try reflexivity; try discriminate.
Qed.

(** C7. When the attempts of iterations [0..k] fail, [k < retries],
    and the context ends during the wait that follows attempt [k],
    the wrapper returns the empty string and the context's error, the
    effector has been invoked [k + 1] times, and the last thing the
    wrapper did is that wait. *)
Theorem retry_cancelled_during_wait (effector : Z -> result)
    (waits : Z -> wait_outcome) (retries k : Z) (cerr : error) :
  0 <= k < retries ->
  (forall r, 0 <= r <= k -> failed (effector r) = true) ->
  (forall r, 0 <= r < k -> waits r = TimerFired) ->
  waits k = CtxDone cerr ->
  ret (Retry effector waits retries) = ("", Some cerr) /\
  calls (Retry effector waits retries) = Z.to_nat (k + 1) /\
  List.last (trace (Retry effector waits retries)) (Attempt 0)
    = Sleep k.
Proof.
  intros Hk Hfail Hwait Hc. unfold Retry.
  pose proof (loop_cancel_at effector waits retries k cerr (Z.to_nat k))
    as L.
  rewrite Z2Nat.id in L by lia. replace (k - k) with 0 in L by lia.
  replace (Z.to_nat (k + 1)) with (S (Z.to_nat k)) by lia.
  apply L; [lia | assumption | assumption | assumption].
Qed.

Lemma retry_cancelled_during_wait_witness :
  let effector := fun _ : Z => ("partial", Some (errorString "down")) in
  let waits := fun r : Z =>
    if r =? 1 then CtxDone DeadlineExceeded else TimerFired in
  ret (Retry effector waits 5) = ("", Some DeadlineExceeded) /\
  calls (Retry effector waits 5) = 2%nat /\
  List.last (trace (Retry effector waits 5)) (Attempt 0) = Sleep 1.
Proof.
  cbv zeta.
  apply (retry_cancelled_during_wait
           (fun _ => ("partial", Some (errorString "down")))
           (fun r => if r =? 1 then CtxDone DeadlineExceeded
                     else TimerFired) 5 1 DeadlineExceeded).
  - lia.
  - reflexivity.
  - intros r Hr. replace r with 0 by lia. reflexivity.
  - reflexivity.
Defined.

(** C10. With [retries <= 0] the wrapper invokes the effector once,
    never waits and returns what that attempt returned. *)
Theorem retry_nonpositive_retries (effector : Z -> result)
    (waits : Z -> wait_outcome) (retries : Z) :
  retries <= 0 ->
  Retry effector waits retries = mkOutcome (effector 0) [Attempt 0] /\
  calls (Retry effector waits retries) = 1%nat /\
  sleeps (Retry effector waits retries) = 0%nat.
Proof.
  intros Hr. unfold Retry.
  assert (E : loop effector waits retries 0
              = mkOutcome (effector 0) [Attempt 0]).
  { destruct (effector 0) as [v [e|]] eqn:E.
    - apply loop_last; [assumption | lia].
    - apply loop_success; assumption. }
  rewrite E. auto.
Qed.

Lemma retry_nonpositive_retries_witness :
  Retry (fun _ => ("", Some (errorString "down")))
        (fun _ => CtxDone Canceled) (-3)
    = mkOutcome ("", Some (errorString "down")) [Attempt 0] /\
  calls (Retry (fun _ => ("", Some (errorString "down")))
               (fun _ => CtxDone Canceled) (-3)) = 1%nat /\
  sleeps (Retry (fun _ => ("", Some (errorString "down")))
                (fun _ => CtxDone Canceled) (-3)) = 0%nat.
Proof.
  apply (retry_nonpositive_retries
           (fun _ => ("", Some (errorString "down")))
           (fun _ => CtxDone Canceled) (-3)).
  lia.
Defined.

(** *** Further properties of the loop *)

(** Induction along the iterations of the loop. *)
Lemma loop_cases effector waits retries (P : Z -> outcome -> Prop) :
  (forall r v, effector r = (v, None) ->
     P r (mkOutcome (v, None) [Attempt r])) ->
  (forall r v e, effector r = (v, Some e) -> r >= retries ->
     P r (mkOutcome (v, Some e) [Attempt r])) ->
  (forall r v e cerr,
     effector r = (v, Some e) -> r < retries -> waits r = CtxDone cerr ->
     P r (mkOutcome ("", Some cerr)
                    [Attempt r; LogRetry (r + 1); Sleep r])) ->
  (forall r v e,
     effector r = (v, Some e) -> r < retries -> waits r = TimerFired ->
     P (r + 1) (loop effector waits retries (r + 1)) ->
     P r (prepend [Attempt r; LogRetry (r + 1); Sleep r]
                  (loop effector waits retries (r + 1)))) ->
  forall r, P r (loop effector waits retries r).
Proof.
  intros Hok Hlast Hcancel Hagain r.
  remember (Z.to_nat (retries - r)) as k eqn:Hk.
  revert r Hk. induction k as [|k IH]; intros r Hk.
  - destruct (effector r) as [v [e|]] eqn:E.
    + rewrite (loop_last _ _ _ _ _ _ E) by lia. apply (Hlast r v e E). lia.
    + rewrite (loop_success _ _ _ _ _ E). apply (Hok r v E).
  - destruct (effector r) as [v [e|]] eqn:E.
    + destruct (waits r) as [|cerr] eqn:W.
      * rewrite (loop_again _ _ _ _ _ _ E) by (assumption || lia).
        apply (Hagain r v e E); [lia | assumption |].
        apply IH. lia.
      * rewrite (loop_cancelled _ _ _ _ _ _ _ E) by (eassumption || lia).
        apply (Hcancel r v e cerr E); [lia | assumption].
    + rewrite (loop_success _ _ _ _ _ E). apply (Hok r v E).
Qed.

Lemma loop_budget effector waits retries r :
  (1 <= calls (loop effector waits retries r))%nat /\
  Z.of_nat (calls (loop effector waits retries r))
    <= Z.max 0 (retries - r) + 1 /\
  (sleeps (loop effector waits retries r)
     <= calls (loop effector waits retries r))%nat.
Proof.
  revert r.
  apply (loop_cases effector waits retries
    (fun r o => (1 <= calls o)%nat /\
                Z.of_nat (calls o) <= Z.max 0 (retries - r) + 1 /\
                (sleeps o <= calls o)%nat)).
  - intros r v _. unfold calls, sleeps; simpl. lia.
  - intros r v e _ _. unfold calls, sleeps; simpl. lia.
  - intros r v e cerr _ Hr _. unfold calls, sleeps; simpl. lia.
  - intros r v e _ Hr _ (IH1 & IH2 & IH3).
    rewrite calls_prepend, sleeps_prepend. simpl. lia.
Qed.

(** X1. Whatever the effector and the context do, the wrapper invokes
    the effector at least once and at most [retries + 1] times (once
    when [retries] is negative), and it never waits more often than it
    has invoked the effector. *)
Theorem retry_call_budget (effector : Z -> result)
    (waits : Z -> wait_outcome) (retries : Z) :
  (1 <= calls (Retry effector waits retries))%nat /\
  Z.of_nat (calls (Retry effector waits retries))
    <= Z.max 0 retries + 1 /\
  (sleeps (Retry effector waits retries)
     <= calls (Retry effector waits retries))%nat.
Proof.
  unfold Retry.
  pose proof (loop_budget effector waits retries 0) as L.
  replace (retries - 0) with retries in L by lia. exact L.
Qed.

Lemma loop_origin effector waits retries r0 :
  (exists r, r0 <= r /\
     Z.of_nat (calls (loop effector waits retries r0)) = r - r0 + 1 /\
     ret (loop effector waits retries r0) = effector r) \/
  (exists r cerr, r0 <= r < retries /\
     failed (effector r) = true /\ waits r = CtxDone cerr /\
     ret (loop effector waits retries r0) = ("", Some cerr)).
Proof.
  revert r0.
  apply (loop_cases effector waits retries
    (fun r0 o =>
       (exists r, r0 <= r /\ Z.of_nat (calls o) = r - r0 + 1 /\
                  ret o = effector r) \/
       (exists r cerr, r0 <= r < retries /\
          failed (effector r) = true /\ waits r = CtxDone cerr /\
          ret o = ("", Some cerr)))).
  - intros r v E. left. exists r. rewrite E.
    unfold calls; simpl. repeat split; lia.
  - intros r v e E _. left. exists r. rewrite E.
    unfold calls; simpl. repeat split; lia.
  - intros r v e cerr E Hr W. right. exists r, cerr.
    unfold failed. rewrite E. simpl. repeat split; (assumption || lia).
  - intros r v e E Hr W IH.
    destruct IH as [(r' & H1 & H2 & H3) | (r' & cerr & H1 & H2 & H3 & H4)].
    + left. exists r'. rewrite calls_prepend. simpl.
      repeat split; (assumption || lia).
    + right. exists r', cerr. simpl.
      repeat split; (assumption || lia).
Qed.

(** X2. What the wrapper returns is never made up: it is either the
    pair of the last attempt it made, or the empty string with the
    error of the context that ended during a wait after a failed
    attempt. *)
Theorem retry_result_origin (effector : Z -> result)
    (waits : Z -> wait_outcome) (retries : Z) :
  (exists r, 0 <= r /\
     Z.of_nat (calls (Retry effector waits retries)) = r + 1 /\
     ret (Retry effector waits retries) = effector r) \/
  (exists r cerr, 0 <= r < retries /\
     failed (effector r) = true /\ waits r = CtxDone cerr /\
     ret (Retry effector waits retries) = ("", Some cerr)).
Proof.
  unfold Retry.
  destruct (loop_origin effector waits retries 0)
    as [(r & H1 & H2 & H3) | H]; [left | right; exact H].
  exists r. repeat split; (assumption || lia).
Qed.

(** The loop entered at iteration [k - j]: the attempts before [k]
    fail, the waits before [k] are ended by the timer and attempt [k]
    succeeds. *)
Lemma loop_succeeds_at effector waits retries k v (j : nat) :
  k <= retries ->
  (forall r, k - Z.of_nat j <= r < k -> failed (effector r) = true) ->
  (forall r, k - Z.of_nat j <= r < k -> waits r = TimerFired) ->
  effector k = (v, None) ->
  ret (loop effector waits retries (k - Z.of_nat j)) = (v, None) /\
  calls (loop effector waits retries (k - Z.of_nat j)) = S j /\
  sleeps (loop effector waits retries (k - Z.of_nat j)) = j.
Proof.
  induction j as [|j IH]; intros Hk Hfail Hwait Hok.
  - replace (k - Z.of_nat 0) with k by lia.
    rewrite (loop_success _ _ _ _ _ Hok). auto.
  - destruct (failed_inv (effector (k - Z.of_nat (S j))))
      as (w & e & E); [apply Hfail; lia |].
    rewrite (loop_again _ _ _ _ _ _ E) by (try apply Hwait; lia).
    replace (k - Z.of_nat (S j) + 1) with (k - Z.of_nat j) by lia.
    destruct IH as (IH1 & IH2 & IH3);
      [lia | intros; apply Hfail; lia | intros; apply Hwait; lia
      | assumption |].
    rewrite calls_prepend, sleeps_prepend, IH2, IH3. simpl. auto.
Qed.

(** X3. The wrapper stops at the first success: when the attempts
    before iteration [k <= retries] fail with the context alive and
    attempt [k] succeeds with [v], it returns [v] with a nil error
    after [k + 1] invocations and [k] waits. A negative [retries]
    leaves room for the one attempt of iteration 0 only. *)
Theorem retry_stops_at_first_success (effector : Z -> result)
    (waits : Z -> wait_outcome) (retries k : Z) (v : string) :
  0 <= k -> k <= Z.max 0 retries ->
  (forall r, 0 <= r < k -> failed (effector r) = true) ->
  (forall r, 0 <= r < k -> waits r = TimerFired) ->
  effector k = (v, None) ->
  ret (Retry effector waits retries) = (v, None) /\
  calls (Retry effector waits retries) = Z.to_nat (k + 1) /\
  sleeps (Retry effector waits retries) = Z.to_nat k.
Proof.
  intros Hk Hkr Hfail Hwait Hok. unfold Retry.
  destruct (Z.eq_dec k 0) as [-> | Hne].
  - rewrite (loop_success _ _ _ _ _ Hok). auto.
  - pose proof (loop_succeeds_at effector waits retries k v (Z.to_nat k))
      as L.
    rewrite Z2Nat.id in L by lia. replace (k - k) with 0 in L by lia.
    replace (Z.to_nat (k + 1)) with (S (Z.to_nat k)) by lia.
    apply L; [lia | assumption | assumption | assumption].
Qed.

Lemma retry_stops_at_first_success_witness :
  let effector := fun r : Z =>
    if r <? 2 then ("", Some (errorString "down")) else ("up", None) in
  ret (Retry effector (fun _ => TimerFired) 5) = ("up", None) /\
  calls (Retry effector (fun _ => TimerFired) 5) = 3%nat /\
  sleeps (Retry effector (fun _ => TimerFired) 5) = 2%nat.
Proof.
  cbv zeta.
  apply (retry_stops_at_first_success
           (fun r => if r <? 2 then ("", Some (errorString "down"))
                     else ("up", None))
           (fun _ => TimerFired) 5 2 "up").
  - lia.
  - lia.
  - intros r Hr. destruct (Z.ltb_spec r 2); [reflexivity | lia].
  - reflexivity.
  - reflexivity.
Defined.

End RetryFacts.

(** ** Timeout *)

Module TimeoutFacts.
Import Timeout.

Lemma Unwrap_Errorf_w prefix e : Unwrap (Errorf_w prefix e) = Some e.
Proof. reflexivity. Qed.

Lemma wrapError_fresh msg e : wrapError msg e <> e.
Proof.
  revert msg.
  induction e as [m|m e IH| |]; intros msg H; try discriminate.
  injection H as _ H. exact (IH _ H).
Qed.

Lemma Errorf_w_fresh prefix e : Errorf_w prefix e <> e.
Proof. apply wrapError_fresh. Qed.

(** What the wrapper returns when the goroutine's message is the one
    the select receives. *)
Lemma Timeout_completes slow ctx slow_first data r :
  completes_first slow ctx slow_first data r ->
  Timeout slow ctx slow_first data
  = Some (match snd r with
          | None => (fst r, None)
          | Some e => ("", Some (Errorf_w "slow: " e))
          end).
Proof.
  intros [Hs Hc]. unfold Timeout, goroutine. rewrite Hs.
  destruct r as [v [e|]]; simpl;
    destruct ctx as [cerr|]; try reflexivity;
    destruct Hc as [Hc|Hc]; try discriminate; rewrite Hc; reflexivity.
Qed.

(** C2, as the code has it. When the underlying call completes before
    the context ends, a success comes back unaltered, value and nil
    error; a failure comes back as a new error, the call's own error
    wrapped under the message prefix [slow: ], with the empty string
    in place of the call's value. *)
Theorem timeout_fast_call (slow : string -> option result)
    (ctx : option error) (slow_first : bool) (data : string)
    (r : result) :
  completes_first slow ctx slow_first data r ->
  Timeout slow ctx slow_first data
  = Some (match snd r with
          | None => (fst r, None)
          | Some e =>
              ("", Some (wrapError (String.append "slow: " (Error e)) e))
          end) /\
  (forall e, snd r = Some e ->
     exists e', Timeout slow ctx slow_first data = Some ("", Some e') /\
                Unwrap e' = Some e /\ e' <> e).
Proof.
  intros H. rewrite (Timeout_completes _ _ _ _ _ H). split.
  - reflexivity.
  - intros e He. rewrite He. exists (Errorf_w "slow: " e).
    repeat split. apply Errorf_w_fresh.
Qed.

Lemma timeout_fast_call_witness :
  Timeout (fun _ => Some ("pong", None)) (Some DeadlineExceeded) true
          "ping"
  = Some ("pong", None).
Proof.
  apply (timeout_fast_call (fun _ => Some ("pong", None))
           (Some DeadlineExceeded) true "ping" ("pong", None)).
  split; [reflexivity | right; reflexivity].
Defined.

(** C2 as stated fails: a call that fails well before the context
    ends does not get its value and error back from the wrapper. *)
Lemma timeout_alters_failure :
  let slow := fun _ : string =>
    Some ("partial", Some (errorString "boom")) in
  completes_first slow None true "ping"
                  ("partial", Some (errorString "boom")) /\
  Timeout slow None true "ping"
    = Some ("", Some (wrapError "slow: boom" (errorString "boom"))) /\
  Timeout slow None true "ping"
    <> Some ("partial", Some (errorString "boom")).
Proof.
  cbv zeta. repeat split; try reflexivity; try discriminate.
  left; reflexivity.
Qed.

(** A failure is never passed on as it is. *)
Lemma timeout_failure_not_verbatim slow ctx slow_first data v e :
  completes_first slow ctx slow_first data (v, Some e) ->
  Timeout slow ctx slow_first data <> Some (v, Some e).
Proof.
  intros H. rewrite (Timeout_completes _ _ _ _ _ H). simpl.
  intros E. injection E as _ E.
  exact (Errorf_w_fresh "slow: " e E).
Qed.

(** When the context ends first, its error is returned. *)
Lemma timeout_context_first slow cerr data :
  Timeout slow (Some cerr) false data = Some ("", Some cerr).
Proof.
  unfold Timeout. destruct (goroutine slow data); reflexivity.
Qed.

(** *** Further properties of the wrapper *)

(** The wrapper fails to return exactly when the slow function
    never returns and the context never ends: either of the two is
    enough to unblock the caller. *)
Theorem timeout_blocks_iff (slow : string -> option result)
    (ctx : option error) (slow_first : bool) (data : string) :
  Timeout slow ctx slow_first data = None <->
  slow data = None /\ ctx = None.
Proof.
  unfold Timeout, goroutine.
  destruct (slow data) as [[v [e|]]|]; destruct ctx as [cerr|];
    try destruct slow_first; simpl; split;
    try discriminate; try tauto; intros [H1 H2]; discriminate.
Qed.

(** X4. What the wrapper returns: a nil error comes only with the slow
    function's own successful value; an error always comes with the
    empty string, and it is either the slow function's error wrapped
    under [slow: ] or the error of the context. *)
Theorem timeout_result_shape (slow : string -> option result)
    (ctx : option error) (slow_first : bool) (data : string)
    (v : string) (oerr : option error) :
  Timeout slow ctx slow_first data = Some (v, oerr) ->
  match oerr with
  | None => slow data = Some (v, None)
  | Some e =>
      v = "" /\
      ((exists w e0, slow data = Some (w, Some e0) /\
                     e = Errorf_w "slow: " e0 /\ Unwrap e = Some e0) \/
       ctx = Some e)
  end.
Proof.
  unfold Timeout, goroutine.
  destruct (slow data) as [[w [e0|]]|]; destruct ctx as [cerr|];
    try destruct slow_first; simpl; intros H;
    try discriminate; injection H as <- <-;
    try reflexivity; split; try reflexivity;
    try (right; reflexivity);
    left; exists w, e0; repeat split.
Qed.

Lemma timeout_result_shape_witness :
  "" = "" /\
  ((exists w e0,
      (fun _ : string => Some ("partial", Some (errorString "boom")))
        "ping" = Some (w, Some e0) /\
      wrapError "slow: boom" (errorString "boom") = Errorf_w "slow: " e0 /\
      Unwrap (wrapError "slow: boom" (errorString "boom")) = Some e0) \/
   @None error = Some (wrapError "slow: boom" (errorString "boom"))).
Proof.
  apply (timeout_result_shape
           (fun _ => Some ("partial", Some (errorString "boom")))
           None true "ping" ""
           (Some (wrapError "slow: boom" (errorString "boom")))).
  reflexivity.
Defined.

End TimeoutFacts.

(** ** Throttle *)

Module ThrottleFacts.
Import Throttle.

(** C6, as the code has it. Five invocations in a row of a throttle
    with [max = 3] and [refill = 1], none of them with a cancelled
    context and with no tick of the refill goroutine between them: the
    first three invoke the effector and return what it returns, each
    taking one token (3, 2, 1, 0), the last two return the rate-limit
    error without invoking it. The package-main version, which does
    not look at the context, does the same under any contexts. *)
Theorem throttle_five_calls (r1 r2 r3 r4 r5 : result)
    (c1 c2 c3 c4 c5 : option error) :
  let live := [Invoke None r1; Invoke None r2; Invoke None r3;
               Invoke None r4; Invoke None r5] in
  let any := [Invoke c1 r1; Invoke c2 r2; Invoke c3 r3;
              Invoke c4 r4; Invoke c5 r5] in
  (snd (run Throttle 3 1 (init 3) live)
     = [mkReply r1 true; mkReply r2 true; mkReply r3 true;
        rate_limited "to many fn calls";
        rate_limited "to many fn calls"] /\
   invocations (snd (run Throttle 3 1 (init 3) live)) = 3%nat /\
   List.map (fun k => tokens (fst (run Throttle 3 1 (init 3)
                                       (List.firstn k live))))
            [0; 1; 2; 3; 4; 5]%nat
     = [3; 2; 1; 0; 0; 0]) /\
  (snd (run Throttle_main 3 1 (init 3) any)
     = [mkReply r1 true; mkReply r2 true; mkReply r3 true;
        rate_limited "too many calls"; rate_limited "too many calls"] /\
   invocations (snd (run Throttle_main 3 1 (init 3) any)) = 3%nat /\
   List.map (fun k => tokens (fst (run Throttle_main 3 1 (init 3)
                                       (List.firstn k any))))
            [0; 1; 2; 3; 4; 5]%nat
     = [3; 2; 1; 0; 0; 0]).
Proof. cbv zeta. repeat split. Qed.

(** C6 as stated fails: in the package-throttle version, when the
    second of the five invocations comes with a cancelled context, it
    gets the context's error and takes no token, so the outcome is not
    three invocations followed by two rate-limit errors: the effector
    is invoked at the first, third and fourth invocation and only the
    fifth is rate-limited. *)
Lemma throttle_five_calls_one_cancelled :
  let ok := ("success", @None error) in
  let evs := [Invoke None ok; Invoke (Some Canceled) ok; Invoke None ok;
              Invoke None ok; Invoke None ok] in
  snd (run Throttle 3 1 (init 3) evs)
    = [mkReply ok true; mkReply ("", Some Canceled) false;
       mkReply ok true; mkReply ok true;
       rate_limited "to many fn calls"] /\
  snd (run Throttle 3 1 (init 3) evs)
    <> [mkReply ok true; mkReply ok true; mkReply ok true;
        rate_limited "to many fn calls";
        rate_limited "to many fn calls"].
Proof. cbv zeta. split; [reflexivity | discriminate]. Qed.

(** One tick later a fourth call would go through: the five calls of
    the theorem are the ones made before any refill. *)
Example throttle_refill_between (r : result) :
  snd (run Throttle 3 1 (init 3)
         [Invoke None r; Invoke None r; Invoke None r; Tick;
          Invoke None r; Invoke None r])
  = [mkReply r true; mkReply r true; mkReply r true; mkReply r true;
     rate_limited "to many fn calls"].
Proof. reflexivity. Qed.

(** The package-throttle version (lines 94-98): a context that is
    cancelled at entry gets its own error back, the effector is not
    invoked and the state, tokens included, is left as it was. *)
Lemma throttle_cancelled_at_entry (st : state) (cerr : error)
    (res : result) :
  Throttle st (Some cerr) res = (st, mkReply ("", Some cerr) false).
Proof. reflexivity. Qed.

(** C8 on the package-main version (lines 20-54), which has no test
    of the context: invoked with a cancelled context and a token
    left, it takes the token and invokes the effector. *)
Theorem throttle_main_ignores_cancellation :
  Throttle_main (init 3) (Some Canceled) ("success", None)
  = (mkState 2 true true, mkReply ("success", None) true).
Proof. reflexivity. Qed.

(** What the package-main version does in general. *)
Lemma throttle_main_context_blind (st : state)
    (c1 c2 : option error) (res : result) :
  Throttle_main st c1 res = Throttle_main st c2 res.
Proof. reflexivity. Qed.

(** *** The two versions side by side *)

Lemma Throttle_live_agrees st c res :
  fst (Throttle st None res) = fst (Throttle_main st c res) /\
  same_but_message (snd (Throttle st None res))
                   (snd (Throttle_main st c res)).
Proof.
  unfold Throttle, Throttle_main, take_token, same_but_message.
  destruct (tokens (once_do st) <=? 0); simpl; auto.
Qed.

(** X17. The two versions of Throttle differ only in the test of the
    context at entry and in the text of the rate-limit error: on any
    history whose invocations all come with a live context they go
    through the same states, invoke the effector at the same
    invocations and return the same pairs there. *)
Theorem throttle_versions_agree_on_live_contexts (max refill : Z)
    (evs : list event) (st : state) :
  live_only evs ->
  fst (run Throttle max refill st evs)
    = fst (run Throttle_main max refill st evs) /\
  List.Forall2 same_but_message
    (snd (run Throttle max refill st evs))
    (snd (run Throttle_main max refill st evs)).
Proof.
  revert st. induction evs as [|ev evs IH]; intros st Hlive.
  - simpl. split; [reflexivity | constructor].
  - inversion Hlive as [|e es Hev Hrest]; subst.
    destruct ev as [[cerr|] res | |]; [contradiction | | |]; cbn [run].
    + destruct (Throttle_live_agrees st None res) as [H1 H2].
      destruct (Throttle st None res) as [s1 rep1].
      destruct (Throttle_main st None res) as [s2 rep2].
      simpl in H1, H2. subst s2.
      destruct (IH s1 Hrest) as [IH1 IH2].
      destruct (run Throttle max refill s1 evs) as [t1 reps1].
      destruct (run Throttle_main max refill s1 evs) as [t2 reps2].
      simpl in *. split; [assumption | constructor; assumption].
    + apply IH; assumption.
    + apply IH; assumption.
Qed.

Lemma throttle_versions_agree_on_live_contexts_witness :
  let evs := [Invoke None ("a", None); Invoke None ("b", None); Tick;
              Invoke None ("c", None); RefillerDone;
              Invoke None ("d", None)] in
  fst (run Throttle 2 1 (init 2) evs)
    = fst (run Throttle_main 2 1 (init 2) evs) /\
  List.Forall2 same_but_message
    (snd (run Throttle 2 1 (init 2) evs))
    (snd (run Throttle_main 2 1 (init 2) evs)).
Proof.
  cbv zeta.
  apply (throttle_versions_agree_on_live_contexts 2 1).
  repeat constructor.
Defined.

End ThrottleFacts.

(** ** Throttle, statement by statement *)

Module ThrottleStepsFacts.
Import GoInt GoIntFacts ThrottleSteps.

Lemma forallb_lookup {A} (f : A -> bool) (l : list A) :
  forallb f l = true <-> forall j q, l !! j = Some q -> f q = true.
Proof.
  induction l as [|x l IH]; simpl.
  - split; [intros _ j q Hq; discriminate Hq | reflexivity].
  - rewrite andb_true_iff, IH. split.
    + intros [Hx Hl] [|j] q Hq; simpl in Hq.
      * injection Hq as <-. exact Hx.
      * eapply Hl; eassumption.
    + intros H. split.
      * apply (H 0%nat x). reflexivity.
      * intros j q Hq. apply (H (S j) q). exact Hq.
Qed.

Lemma quiet_lookup s j q :
  quiet s = true -> callers s !! j = Some q -> in_flight q = false.
Proof.
  unfold quiet. rewrite forallb_lookup. intros H Hq.
  specialize (H j q Hq). destruct (in_flight q); [discriminate | reflexivity].
Qed.

(** The callers after invocation [i], the only one that may be in
    flight, has moved to [pc']. *)
Lemma solo_set s s' i pc pc' (P : option caller_pc -> Prop) :
  callers s !! i = Some pc ->
  (forall j q, j <> i -> callers s !! j = Some q -> in_flight q = false) ->
  callers s' = <[i := pc']> (callers s) ->
  (if in_flight pc' then P (Some pc') else P None) ->
  solo s' P.
Proof.
  intros Hi Hothers Hc HP.
  assert (Hlen : (i < length (callers s))%nat)
    by (eapply lookup_lt_Some; eassumption).
  destruct (in_flight pc') eqn:Hf.
  - right. exists i, pc'. rewrite Hc. repeat split; try assumption.
    + apply list_lookup_insert_eq; assumption.
    + intros j q Hj Hq. rewrite list_lookup_insert_ne in Hq by congruence.
      eapply Hothers; eassumption.
  - left. split; [| assumption]. unfold quiet. rewrite forallb_lookup, Hc.
    intros j q Hq. apply list_lookup_insert_Some in Hq.
    destruct Hq as [(-> & <- & _) | (Hne & Hq)].
    + rewrite Hf. reflexivity.
    + rewrite (Hothers j q) by (congruence || assumption). reflexivity.
Qed.

Lemma solo_same s s' (P P' : option caller_pc -> Prop) :
  callers s' = callers s ->
  (forall o, P o -> P' o) ->
  solo s P -> solo s' P'.
Proof.
  intros Hc HP [(Hq & H) | (i & pc & Hi & Hf & Hothers & H)].
  - left. unfold quiet in *. rewrite Hc. auto.
  - right. exists i, pc. rewrite Hc. auto.
Qed.

(** What one statement of an invocation does when no other invocation
    is in flight: it writes [tokens] at most once, to take a token
    that is there, and the budget that covered the invocations and the
    tokens before covers them after. *)
Lemma caller_step_accounted v i ctx_err res s s' pc budget :
  callers s !! i = Some pc ->
  (forall j q, j <> i -> callers s !! j = Some q -> in_flight q = false) ->
  (if in_flight pc then accounted s budget (Some pc)
   else accounted s budget None) ->
  tokens s <= max_int ->
  caller_step v i ctx_err res pc s = Some s' ->
  solo s' (accounted s' budget) /\
  (tokens s' = tokens s \/ 0 <= tokens s' < tokens s) /\
  written s' = written s /\
  (invoked s <= invoked s')%nat /\
  (refiller s' = refiller s \/ refiller s' = rSelect) /\
  (once_done s = true ->
   once_done s' = true /\ refiller s' = refiller s).
Proof.
  intros Hi Hothers Hacc Hmax Hstep.
  assert (Honce : callers (once_do s) = callers s /\
                  tokens (once_do s) = tokens s /\
                  invoked (once_do s) = invoked s /\
                  written (once_do s) = written s /\
                  (refiller (once_do s) = refiller s \/
                   refiller (once_do s) = rSelect) /\
                  (once_done s = true ->
                   once_done (once_do s) = true /\
                   refiller (once_do s) = refiller s)).
  { unfold once_do. destruct (once_done s) eqn:Ho; simpl;
      repeat split; auto; discriminate. }
  destruct Honce as (Ho1 & Ho2 & Ho3 & Ho4 & Ho5 & Ho6).
  destruct pc; simpl in Hacc, Hstep.
  - (* tStart *)
    destruct v, ctx_err as [cerr|]; injection Hstep as <-;
      (split;
       [eapply (solo_set s _ i); eauto; unfold accounted; simpl;
        try split; try exact I; lia
       | simpl; auto 10]).
  - (* tOnce *)
    injection Hstep as <-. destruct Hacc as [_ Hacc]. simpl in Hacc.
    split.
    + apply (solo_set s _ i tOnce tTest); auto.
      * simpl. rewrite Ho1. reflexivity.
      * simpl. unfold accounted, caller_ok; simpl. rewrite Ho2, Ho3.
        split; [exact I | lia].
    + simpl. rewrite Ho2, Ho3, Ho4. auto 10.
  - (* tTest *)
    destruct Hacc as [_ Hacc]. simpl in Hacc.
    destruct (Z.leb_spec (tokens s) 0) as [Hle | Hgt];
      injection Hstep as <-.
    + split; [eapply (solo_set s _ i); eauto; simpl; lia |].
      simpl; auto 10.
    + split; [eapply (solo_set s _ i); eauto; simpl; split; lia |].
      simpl; auto 10.
  - (* tLoad *)
    injection Hstep as <-. destruct Hacc as [Hok Hacc].
    simpl in Hok, Hacc.
    split; [eapply (solo_set s _ i); eauto; simpl; split; lia |].
    simpl; auto 10.
  - (* tStore *)
    injection Hstep as <-. destruct Hacc as [Hok Hacc].
    simpl in Hok, Hacc.
    assert (E : wrap64 (v0 - 1) = v0 - 1)
      by (apply wrap64_id; unfold in_range, min_int, max_int in *; lia).
    split.
    + eapply (solo_set s _ i); eauto; simpl. rewrite E.
      split; [exact I | lia].
    + simpl. rewrite E. repeat split; auto; lia.
  - (* tCall *)
    injection Hstep as <-. destruct Hacc as [_ Hacc]. simpl in Hacc.
    split; [eapply (solo_set s _ i); eauto; simpl; lia |].
    simpl; auto 10.
  - discriminate Hstep.
Qed.

(** The invocation that moves is the one in flight, or one that starts
    while none is. *)
Lemma mover_is_solo v i ctx_err res s s' pc
      (P : option caller_pc -> Prop) :
  solo s P ->
  no_overlap (CallerStep i ctx_err res) s = true ->
  callers s !! i = Some pc ->
  caller_step v i ctx_err res pc s = Some s' ->
  (forall j q, j <> i -> callers s !! j = Some q -> in_flight q = false) /\
  (if in_flight pc then P (Some pc) else P None).
Proof.
  intros Hsolo Hno Hi Hstep. simpl in Hno. rewrite Hi in Hno.
  destruct Hsolo as [(Hq & HP) | (h & pch & Hh & Hf & Hothers & HP)].
  - split; [intros j q _ Hq'; eapply quiet_lookup; eassumption |].
    rewrite (quiet_lookup s i pc Hq Hi). exact HP.
  - destruct (Nat.eq_dec i h) as [-> | Hne].
    + assert (pc = pch) as -> by congruence.
      split; [assumption |]. rewrite Hf. exact HP.
    + pose proof (Hothers i pc Hne Hi) as Hpc.
      destruct pc; try discriminate Hpc; [| discriminate Hstep].
      rewrite (quiet_lookup s h pch Hno Hh) in Hf. discriminate Hf.
Qed.

Lemma pool_inv_init max n : 0 <= max -> inv max (init max n).
Proof.
  intros Hmax. unfold inv, init; simpl. split; [lia |]. split; [exact I |].
  left. split.
  - unfold quiet; simpl. apply forallb_lookup. intros j q Hq.
    apply lookup_replicate in Hq. destruct Hq as [-> _]. reflexivity.
  - simpl. lia.
Qed.

Lemma pool_inv_step v max refill l s s' :
  0 <= max -> 0 <= refill -> max + refill <= max_int ->
  inv max s -> no_overlap l s = true ->
  step v max refill l s = Some s' ->
  inv max s'.
Proof.
  intros Hmax Href Hsum (Hb & Hr & Hsolo) Hno Hstep.
  assert (Hmi : max <= max_int) by lia.
  destruct l as [i ctx_err res | | |]; simpl in Hstep.
  - destruct (callers s !! i) as [pc|] eqn:Hi; [| discriminate].
    destruct (mover_is_solo v i ctx_err res s s' pc _
                Hsolo Hno Hi Hstep) as [Hothers HP].
    destruct (caller_step_accounted v i ctx_err res s s' pc _
                Hi Hothers HP ltac:(lia) Hstep)
      as (Hs & Ht & Hw & _ & Hrf & _).
    unfold inv. rewrite Hw. split; [lia |]. split; [| exact Hs].
    destruct Hrf as [-> | ->]; [| exact I].
    destruct (refiller s); try exact I. lia.
  - unfold refiller_step in Hstep.
    destruct (refiller s) eqn:Er; try discriminate.
    injection Hstep as <-. unfold inv; simpl.
    rewrite wrap64_id by (unfold in_range, min_int, max_int in *; lia).
    split; [lia |]. split.
    + destruct (Z.gtb_spec (tokens s + refill) max); lia.
    + eapply solo_same; [| | exact Hsolo]; [reflexivity |].
      intros [pc|]; simpl; auto.
  - unfold refiller_step in Hstep.
    destruct (refiller s) eqn:Er; try discriminate.
    injection Hstep as <-. unfold inv; simpl.
    split; [lia |]. split; [exact I |].
    eapply solo_same; [| | exact Hsolo]; [reflexivity |].
    intros [pc|]; unfold accounted; simpl.
    + intros [Hok Hacc]. split.
      * destruct pc; simpl in *; lia.
      * assert (0 <= pend pc) by (destruct pc; simpl; lia).
        rewrite Nat2Z.inj_succ. nia.
    + intros Hacc. rewrite Nat2Z.inj_succ. nia.
  - unfold refiller_step in Hstep.
    destruct (refiller s) eqn:Er; try discriminate.
    injection Hstep as <-. unfold inv; simpl.
    split; [lia |]. split; [exact I |].
    eapply solo_same; [| | exact Hsolo]; [reflexivity |].
    intros [pc|]; simpl; auto.
Qed.

Lemma pool_inv_run v max refill ls :
  0 <= max -> 0 <= refill -> max + refill <= max_int ->
  forall s s',
    inv max s -> sequential v max refill ls s = true ->
    run v max refill ls s = Some s' ->
    inv max s'.
Proof.
  intros Hmax Href Hsum.
  induction ls as [|l ls IH]; intros s s' Hinv Hseq Hrun; simpl in *.
  - injection Hrun as <-. exact Hinv.
  - apply andb_true_iff in Hseq. destruct Hseq as [Hno Hseq].
    destruct (step v max refill l s) as [s1|] eqn:Hstep; [| discriminate].
    apply (IH s1 s'); [| assumption | assumption].
    eapply pool_inv_step; eassumption.
Qed.

Lemma solo_accounted_bound s budget :
  0 <= tokens s -> solo s (accounted s budget) ->
  Z.of_nat (invoked s) <= budget.
Proof.
  intros Ht [(_ & H) | (i & pc & _ & _ & _ & Hok & H)]; simpl in H.
  - lia.
  - assert (0 <= pend pc) by (destruct pc; simpl; lia). lia.
Qed.

(** X5. As long as invocations do not overlap each other, the number
    of tokens stays between 0 and [max], for both versions of Throttle
    and however the reads and writes of the refill goroutine fall
    between the statements of the invocations; [0 <= max],
    [0 <= refill] and [max + refill] within an int are assumed. *)
Theorem throttle_tokens_stay_in_bounds (v : version) (max refill : Z)
    (n : nat) (ls : list label) (s : state) :
  0 <= max -> 0 <= refill -> max + refill <= max_int ->
  sequential v max refill ls (init max n) = true ->
  run v max refill ls (init max n) = Some s ->
  0 <= tokens s <= max.
Proof.
  intros Hmax Href Hsum Hseq Hrun.
  destruct (pool_inv_run v max refill ls Hmax Href Hsum _ _
              (pool_inv_init max n Hmax) Hseq Hrun) as (Hb & _).
  exact Hb.
Qed.

(** X6. The rate limit the code gives: as long as invocations do not
    overlap each other, the effector is invoked at most
    [max * (1 + w)] times in a history in which the refill goroutine
    has written [tokens] [w] times, for both versions of Throttle. *)
Theorem throttle_invocations_per_refill (v : version) (max refill : Z)
    (n : nat) (ls : list label) (s : state) :
  0 <= max -> 0 <= refill -> max + refill <= max_int ->
  sequential v max refill ls (init max n) = true ->
  run v max refill ls (init max n) = Some s ->
  Z.of_nat (invoked s) <= max * (1 + Z.of_nat (written s)).
Proof.
  intros Hmax Href Hsum Hseq Hrun.
  destruct (pool_inv_run v max refill ls Hmax Href Hsum _ _
              (pool_inv_init max n Hmax) Hseq Hrun) as (Hb & _ & Hsolo).
  apply solo_accounted_bound; [lia | exact Hsolo].
Qed.

Lemma throttle_tokens_stay_in_bounds_witness :
  exists s,
    run PackageThrottle 3 1 tick_across_three_calls (init 3 6) = Some s /\
    0 <= tokens s <= 3.
Proof.
  eexists. split; [vm_compute; reflexivity |].
  apply (throttle_tokens_stay_in_bounds PackageThrottle 3 1 6
           tick_across_three_calls).
  - lia.
  - lia.
  - unfold max_int; lia.
  - vm_compute; reflexivity.
  - vm_compute; reflexivity.
Defined.

Lemma throttle_invocations_per_refill_witness :
  exists s,
    run PackageThrottle 3 1 tick_across_three_calls (init 3 6) = Some s /\
    invoked s = 6%nat /\ written s = 1%nat /\
    Z.of_nat (invoked s) <= 3 * (1 + Z.of_nat (written s)).
Proof.
  eexists. split; [vm_compute; reflexivity |]. split; [vm_compute; reflexivity |].
  split; [vm_compute; reflexivity |].
  apply (throttle_invocations_per_refill PackageThrottle 3 1 6
           tick_across_three_calls).
  - lia.
  - lia.
  - unfold max_int; lia.
  - vm_compute; reflexivity.
  - vm_compute; reflexivity.
Defined.

(** A refill does not add [refill] tokens to what is there when it is
    written: with [max = 3] and [refill = 1], six invocations that do
    not overlap reach the effector around a single write of the refill
    goroutine, which read [tokens] before three of them and wrote after
    them. *)
Lemma tick_restores_spent_tokens :
  sequential PackageThrottle 3 1 tick_across_three_calls (init 3 6)
    = true /\
  exists s,
    run PackageThrottle 3 1 tick_across_three_calls (init 3 6) = Some s /\
    invoked s = 6%nat /\ written s = 1%nat /\ tokens s = 0.
Proof. split; [vm_compute; reflexivity |]. eexists. split; [vm_compute; reflexivity | repeat split]. Qed.

(** Invocations that overlap can share a token: with one token left,
    both of two overlapping invocations pass the test of line 127 and
    invoke the effector. *)
Lemma overlapping_callers_share_a_token :
  sequential PackageThrottle 1 1 two_callers_overlap (init 1 2) = false /\
  exists s,
    run PackageThrottle 1 1 two_callers_overlap (init 1 2) = Some s /\
    invoked s = 2%nat /\ written s = 0%nat.
Proof. split; [vm_compute; reflexivity |]. eexists. split; [vm_compute; reflexivity | repeat split]. Qed.

Lemma dry_step v max refill l s s' (T budget : Z) (w : nat) :
  T <= max_int ->
  dry s -> written s = w -> Z.min 0 T <= tokens s <= T ->
  solo s (accounted s budget) ->
  no_overlap l s = true ->
  step v max refill l s = Some s' ->
  dry s' /\ written s' = w /\ Z.min 0 T <= tokens s' <= T /\
  solo s' (accounted s' budget).
Proof.
  intros HT [Ho Hr] Hw Ht Hsolo Hno Hstep.
  destruct l as [i ctx_err res | | |]; simpl in Hstep;
    try (unfold refiller_step in Hstep; rewrite Hr in Hstep;
         discriminate Hstep).
  destruct (callers s !! i) as [pc|] eqn:Hi; [| discriminate].
  destruct (mover_is_solo v i ctx_err res s s' pc _ Hsolo Hno Hi Hstep)
    as [Hothers HP].
  destruct (caller_step_accounted v i ctx_err res s s' pc _
              Hi Hothers HP ltac:(lia) Hstep)
    as (Hs & Htok & Hwr & _ & _ & Hkeep).
  destruct (Hkeep Ho) as [Ho' Hr'].
  unfold dry. rewrite Ho', Hr', Hr, Hwr.
  repeat split; try assumption; lia.
Qed.

Lemma dry_run v max refill (T budget : Z) (w : nat) ls :
  T <= max_int ->
  forall s s',
    dry s -> written s = w -> Z.min 0 T <= tokens s <= T ->
    solo s (accounted s budget) ->
    sequential v max refill ls s = true ->
    run v max refill ls s = Some s' ->
    dry s' /\ written s' = w /\ Z.min 0 T <= tokens s' <= T /\
    solo s' (accounted s' budget).
Proof.
  intros HT. induction ls as [|l ls IH];
    intros s s' Hd Hw Ht Hsolo Hseq Hrun; simpl in *.
  - injection Hrun as <-. auto.
  - apply andb_true_iff in Hseq. destruct Hseq as [Hno Hseq].
    destruct (step v max refill l s) as [s1|] eqn:Hstep; [| discriminate].
    destruct (dry_step v max refill l s s1 T budget w HT Hd Hw Ht Hsolo
                Hno Hstep) as (Hd1 & Hw1 & Ht1 & Hsolo1).
    apply (IH s1 s'); assumption.
Qed.

(** X7. The refill goroutine is tied to the context of the invocation
    that started it. Once the Once is used and that goroutine has
    returned, then from any moment when no invocation is in flight, and
    as long as invocations do not overlap each other: no later
    invocation starts another goroutine, [tokens] is never written by
    a refill again and never grows, and the effector is invoked at most
    as often as there are tokens left, for both versions of
    Throttle. *)
Theorem throttle_dry_once_refiller_exits (v : version) (max refill : Z)
    (ls : list label) (s s' : state) :
  dry s -> quiet s = true -> tokens s <= max_int ->
  sequential v max refill ls s = true ->
  run v max refill ls s = Some s' ->
  dry s' /\ written s' = written s /\ tokens s' <= tokens s /\
  Z.of_nat (invoked s') <= Z.of_nat (invoked s) + Z.max 0 (tokens s).
Proof.
  intros Hd Hq Ht Hseq Hrun.
  destruct (dry_run v max refill (tokens s)
              (Z.of_nat (invoked s) + tokens s) (written s) ls Ht s s'
              Hd eq_refl ltac:(lia)
              ltac:(left; split; [exact Hq | simpl; lia]) Hseq Hrun)
    as (Hd' & Hw' & Ht' & Hsolo').
  split; [exact Hd' |]. split; [exact Hw' |]. split; [lia |].
  destruct Hsolo' as [(_ & H) | (i & pc & _ & _ & _ & Hok & H)];
    simpl in H.
  - lia.
  - assert (0 <= pend pc) by (destruct pc; simpl; lia). lia.
Qed.

Lemma throttle_dry_once_refiller_exits_witness :
  let ok := ("ok", @None error) in
  let s := mkState 2 true rExited 1 0
             [tReturned ok; tStart; tStart; tStart] in
  let ls := (whole_invocation 1 None ok ++ whole_invocation 2 None ok
             ++ [CallerStep 3 None ok; CallerStep 3 None ok;
                 CallerStep 3 None ok])%list in
  exists s',
    run PackageThrottle 3 1 ls s = Some s' /\
    invoked s' = 3%nat /\
    (dry s' /\ written s' = written s /\ tokens s' <= tokens s /\
     Z.of_nat (invoked s') <= Z.of_nat (invoked s) + Z.max 0 (tokens s)).
Proof.
  cbv zeta. eexists. split; [vm_compute; reflexivity |]. split; [vm_compute; reflexivity |].
  apply (throttle_dry_once_refiller_exits PackageThrottle 3 1
           (whole_invocation 1 None ("ok", None)
            ++ whole_invocation 2 None ("ok", None)
            ++ [CallerStep 3 None ("ok", None);
                CallerStep 3 None ("ok", None);
                CallerStep 3 None ("ok", None)])%list
           (mkState 2 true rExited 1 0
              [tReturned ("ok", None); tStart; tStart; tStart])).
  - split; vm_compute; reflexivity.
  - vm_compute; reflexivity.
  - unfold max_int; simpl; lia.
  - vm_compute; reflexivity.
  - vm_compute; reflexivity.
Defined.

End ThrottleStepsFacts.

(** ** Debounce, first version *)

Module Debounce1Facts.
Import Debounce1.

(** C3, as the code has it. An invocation at a time before
    [threshold] returns the cached pair, does not invoke the circuit
    and leaves the cache as it is, and it moves [threshold] to the
    time of its return plus the cooldown; an invocation that runs the
    circuit stores and returns its answer and moves [threshold] the
    same way. *)
Theorem debounce_within_cooldown (d : Z) (st : state)
    (now : Z) (res : result) (now' : Z) :
  now < threshold st ->
  DebounceVersion1 d st now res now'
  = (mkState (now' + d) (result_ st) (err st),
     mkReply (result_ st, err st) false) /\
  (forall st0 now0 res0 now0',
      threshold (fst (DebounceVersion1 d st0 now0 res0 now0'))
      = now0' + d).
Proof.
  intros H. unfold DebounceVersion1. split.
  - destruct (Z.ltb_spec now (threshold st)); [reflexivity | lia].
  - intros st0 now0 res0 now0'.
    destruct (now0 <? threshold st0); reflexivity.
Qed.

Lemma debounce_within_cooldown_witness :
  DebounceVersion1 (100 * ms) (mkState (100 * ms) "v" None)
                   (10 * ms) ("w", None) (10 * ms)
  = (mkState (110 * ms) "v" None, mkReply ("v", None) false).
Proof.
  apply (debounce_within_cooldown (100 * ms)
           (mkState (100 * ms) "v" None) (10 * ms) ("w", None)
           (10 * ms)).
  unfold ms; simpl; lia.
Defined.

(** Every invocation moves [threshold], whichever path it takes. *)
Lemma debounce_threshold_always_moves d st now res now' :
  threshold (fst (DebounceVersion1 d st now res now')) = now' + d.
Proof.
  unfold DebounceVersion1. destruct (now <? threshold st); reflexivity.
Qed.

Lemma debounce_after_cooldown d st now res now' :
  threshold st <= now ->
  DebounceVersion1 d st now res now'
  = (mkState (now' + d) (fst res) (snd res), mkReply res true).
Proof.
  intros H. unfold DebounceVersion1.
  destruct (Z.ltb_spec now (threshold st)); [lia | reflexivity].
Qed.

(** C3 as stated fails: with a cooldown of 100ms, a first call at
    time 0 sets [threshold] to 100ms; a second call at 10ms gets the
    cached pair without an invocation of the circuit, and moves
    [threshold] to 110ms. *)
Lemma debounce_cached_call_moves_threshold :
  let first := DebounceVersion1 (100 * ms) init 0 ("v", None) 0 in
  let second :=
    DebounceVersion1 (100 * ms) (fst first) (10 * ms) ("w", None)
                     (10 * ms) in
  threshold (fst first) = 100 * ms /\
  10 * ms < threshold (fst first) /\
  snd second = mkReply ("v", None) false /\
  threshold (fst second) = 110 * ms /\
  threshold (fst second) <> threshold (fst first).
Proof.
  cbv zeta. repeat split; try reflexivity; discriminate.
Qed.

(** The scenario of the specification: two calls 10ms apart share one
    execution, a third call 150ms later runs the circuit again. *)
Example debounce_scenario :
  snd (run (100 * ms) init
         [(0, ("v", None), 0);
          (10 * ms, ("w", None), 10 * ms);
          (160 * ms, ("x", None), 160 * ms)])
  = [mkReply ("v", None) true; mkReply ("v", None) false;
     mkReply ("x", None) true].
Proof. reflexivity. Qed.

(** *** Further properties of the first version *)

(** X13. A burst is served from the cache for as long as it lasts:
    when every call comes before the cooldown restarted by the call
    before it is over, none of them executes the circuit, however many
    they are and however long ago the cached pair was computed; all of
    them get that pair, and the cache is left as it was. *)
Theorem debounce_burst_served_from_cache (d : Z)
    (calls : list (Z * result * Z)) (st : state) :
  burst d (threshold st) calls ->
  snd (run d st calls)
    = List.map (fun _ => mkReply (result_ st, err st) false) calls /\
  result_ (fst (run d st calls)) = result_ st /\
  err (fst (run d st calls)) = err st.
Proof.
  revert st. induction calls as [|[[now res] now'] calls IH];
    intros st Hb.
  - simpl. auto.
  - destruct Hb as [Hnow Hb]. cbn [run].
    unfold DebounceVersion1.
    destruct (Z.ltb_spec now (threshold st)) as [_|Hge]; [| lia].
    specialize (IH (mkState (now' + d) (result_ st) (err st)) Hb).
    destruct (run d (mkState (now' + d) (result_ st) (err st)) calls)
      as [st2 reps].
    simpl in *. destruct IH as (IH1 & IH2 & IH3).
    rewrite IH1. auto.
Qed.

Lemma debounce_burst_served_from_cache_witness :
  let st := mkState (100 * ms) "v" None in
  let calls := [(90 * ms, ("a", None), 90 * ms);
                (180 * ms, ("b", None), 180 * ms);
                (270 * ms, ("c", None), 270 * ms)] in
  snd (run (100 * ms) st calls)
    = List.map (fun _ => mkReply (result_ st, err st) false) calls /\
  result_ (fst (run (100 * ms) st calls)) = result_ st /\
  err (fst (run (100 * ms) st calls)) = err st.
Proof.
  cbv zeta.
  apply (debounce_burst_served_from_cache (100 * ms)
           [(90 * ms, ("a", None), 90 * ms);
            (180 * ms, ("b", None), 180 * ms);
            (270 * ms, ("c", None), 270 * ms)]
           (mkState (100 * ms) "v" None)).
  unfold ms; simpl; lia.
Defined.

(** X14. Calls that are spaced out all reach the circuit: when every
    call comes no earlier than the cooldown after the return of the
    call before it, each one executes the circuit and gets its own
    answer; the first call of a fresh wrapper always does. *)
Theorem debounce_spaced_calls_all_run (d : Z)
    (calls : list (Z * result * Z)) (st : state) :
  spaced d (threshold st) calls ->
  snd (run d st calls)
    = List.map (fun c => mkReply (snd (fst c)) true) calls /\
  (forall now res now' rest,
     0 <= now ->
     List.hd_error (snd (run d init ((now, res, now') :: rest)))
     = Some (mkReply res true)).
Proof.
  intros Hs. split.
  - revert st Hs. induction calls as [|[[now res] now'] calls IH];
      intros st Hs.
    + reflexivity.
    + destruct Hs as [Hnow Hs]. cbn [run].
      rewrite debounce_after_cooldown by assumption.
      specialize (IH (mkState (now' + d) (fst res) (snd res)) Hs).
      destruct (run d (mkState (now' + d) (fst res) (snd res)) calls)
        as [st2 reps].
      simpl in *. rewrite IH. reflexivity.
  - intros now res now' rest Hnow. cbn [run].
    rewrite debounce_after_cooldown by (simpl; lia).
    destruct (run d (mkState (now' + d) (fst res) (snd res)) rest).
    reflexivity.
Qed.

Lemma debounce_spaced_calls_all_run_witness :
  snd (run (100 * ms) init
         [(0, ("a", None), 5 * ms);
          (105 * ms, ("", Some (errorString "down")), 110 * ms);
          (300 * ms, ("c", None), 300 * ms)])
  = [mkReply ("a", None) true;
     mkReply ("", Some (errorString "down")) true;
     mkReply ("c", None) true].
Proof.
  apply (debounce_spaced_calls_all_run (100 * ms)
           [(0, ("a", None), 5 * ms);
            (105 * ms, ("", Some (errorString "down")), 110 * ms);
            (300 * ms, ("c", None), 300 * ms)] init).
  unfold ms; simpl; lia.
Defined.

End Debounce1Facts.

(** ** Breaker *)

Module BreakerFacts.
Import GoInt GoIntFacts Breaker.

(** Up to [d = 32] the shift stays inside a [time.Duration]. *)
Lemma backoff_exact d :
  0 <= d <= 32 -> backoff d = 2 ^ (d + 1) * Second.
Proof.
  intros Hd. unfold backoff, shl64, Second.
  rewrite Z.shiftl_mul_pow2 by lia.
  assert (Hpos : 0 < 2 ^ d) by (apply Z.pow_pos_nonneg; lia).
  assert (Hle : 2 ^ d <= 2 ^ 32) by (apply Z.pow_le_mono_r; lia).
  rewrite wrap64_id by (unfold in_range, min_int, max_int; lia).
  rewrite Z.pow_add_r by lia. lia.
Qed.

(** From [d = 33] on it does not: the product leaves the range at
    33, and from 54 on no bit is left. *)
Lemma backoff_overflow :
  backoff 33 = -1266874889709551616 /\
  backoff 40 = 3860710780563357696 /\
  backoff 54 = 0.
Proof. repeat split; vm_compute; reflexivity. Qed.

(** X8. The check of lines 277-292 while nothing overflows, that is
    for [d <= 32]: the call is rejected exactly when [d >= 0] and the
    clock is not after [lastAttempt + 2^(d+1)] seconds, and it is
    invoked otherwise. *)
Lemma breaker_check_in_range (failureThreshold : Z) (st : state)
    (now : Z) (res : result) (now' : Z) :
  let d := consecutiveFailures st - failureThreshold in
  in_range d -> d <= 32 ->
  (d >= 0 /\ now <= lastAttempt st + 2 ^ (d + 1) * Second ->
   Breaker failureThreshold st now res now'
   = (st, mkReply unreachable false)) /\
  (~ (d >= 0 /\ now <= lastAttempt st + 2 ^ (d + 1) * Second) ->
   invoked (snd (Breaker failureThreshold st now res now')) = true).
Proof.
  intros d Hr Hd. unfold Breaker, rejects. fold d.
  rewrite (wrap64_id d Hr).
  destruct (Z.geb_spec d 0) as [H0|H0]; simpl.
  - rewrite (backoff_exact d) by lia.
    destruct (Z.gtb_spec now (lastAttempt st + 2 ^ (d + 1) * Second))
      as [Hgt|Hle]; simpl; split; intros Hc; try lia; try reflexivity.
    destruct (record_attempt st res now'); reflexivity.
  - split; intros Hc; [lia |].
    destruct (record_attempt st res now'); reflexivity.
Qed.

Lemma breaker_check_in_range_witness :
  let d := consecutiveFailures (mkState 4 0) - 3 in
  (d >= 0 /\ 3 * Second <= lastAttempt (mkState 4 0) + 2 ^ (d + 1) * Second ->
   Breaker 3 (mkState 4 0) (3 * Second) ("ok", None) (3 * Second)
   = (mkState 4 0, mkReply unreachable false)) /\
  (~ (d >= 0 /\
      3 * Second <= lastAttempt (mkState 4 0) + 2 ^ (d + 1) * Second) ->
   invoked (snd (Breaker 3 (mkState 4 0) (3 * Second) ("ok", None)
                         (3 * Second))) = true).
Proof.
  apply (breaker_check_in_range 3 (mkState 4 0) (3 * Second) ("ok", None)
           (3 * Second)).
  - unfold in_range, min_int, max_int; simpl; lia.
  - simpl; lia.
Defined.

(** C1 on the code. A breaker with threshold 3 that has seen 36
    failures in a row has [d = 33]; its backoff should be [2^34]
    seconds, but [time.Second * 2 << 33] has left the range of a
    [time.Duration] and is negative, so a call made one second after
    the last attempt is let through to the circuit. The same happens
    at the first call of a breaker built with threshold [-33]. *)
Theorem breaker_backoff_wraps (res : result) :
  let st := fail_repeatedly 3 36 (init 0) in
  let now := lastAttempt st + Second in
  consecutiveFailures st - 3 = 33 /\
  now <= lastAttempt st + 2 ^ (33 + 1) * Second /\
  invoked (snd (Breaker 3 st now res now)) = true /\
  (Second <= 0 + 2 ^ (33 + 1) * Second /\
   invoked (snd (Breaker (-33) (init 0) Second res Second)) = true).
Proof.
  cbv zeta.
  let v := eval vm_compute in (fail_repeatedly 3 36 (init 0)) in
  assert (E : fail_repeatedly 3 36 (init 0) = v)
    by (vm_compute; reflexivity).
  rewrite E. clear E.
  cbn [consecutiveFailures lastAttempt].
  assert (Hb : backoff 33 = -1266874889709551616)
    by (vm_compute; reflexivity).
  split; [reflexivity |].
  split; [vm_compute; discriminate |].
  split.
  - unfold Breaker, rejects. cbn [consecutiveFailures lastAttempt].
    replace (wrap64 (36 - 3)) with 33 by (vm_compute; reflexivity).
    rewrite Hb.
    match goal with
    | |- context [?a >? ?b] =>
        replace (a >? b) with true by (vm_compute; reflexivity)
    end.
    cbn [Z.geb Z.compare andb negb].
    destruct (record_attempt _ res _); reflexivity.
  - split; [vm_compute; discriminate |].
    unfold Breaker.
    replace (rejects (-33) (init 0) Second) with false
      by (vm_compute; reflexivity).
    destruct (record_attempt _ res _); reflexivity.
Qed.

Lemma Breaker_through failureThreshold st now res now' :
  rejects failureThreshold st now = false ->
  Breaker failureThreshold st now res now'
  = (fst (record_attempt st res now'),
     mkReply (snd (record_attempt st res now')) true).
Proof.
  intros H. unfold Breaker. rewrite H.
  destruct (record_attempt st res now'); reflexivity.
Qed.

Lemma Breaker_rejected failureThreshold st now res now' :
  rejects failureThreshold st now = true ->
  Breaker failureThreshold st now res now'
  = (st, mkReply unreachable false).
Proof. intros H. unfold Breaker. rewrite H. reflexivity. Qed.

(** C9, as the code has it. Whenever the circuit is invoked, the
    wrapper returns the circuit's own pair and [lastAttempt] becomes
    the time of its return. If the call succeeded, the counter is set
    to 0, whatever it was and whatever the threshold; and when the
    threshold is at least 1, the next invocation is let through
    whenever it comes. If the call failed, the counter goes up by one
    in int arithmetic, which is [consecutiveFailures + 1] for every
    counter below the largest int. *)
Theorem breaker_recovery (failureThreshold : Z) (st : state)
    (now : Z) (res : result) (now' : Z) :
  invoked (snd (Breaker failureThreshold st now res now')) = true ->
  let st' := fst (Breaker failureThreshold st now res now') in
  let rep := snd (Breaker failureThreshold st now res now') in
  returned rep = res /\ lastAttempt st' = now' /\
  (snd res = None ->
   consecutiveFailures st' = 0 /\
   (1 <= failureThreshold <= max_int ->
    forall now2 res2 now2',
      invoked (snd (Breaker failureThreshold st' now2 res2 now2'))
      = true)) /\
  (snd res <> None ->
   consecutiveFailures st' = wrap64 (consecutiveFailures st + 1) /\
   (min_int <= consecutiveFailures st < max_int ->
    consecutiveFailures st' = consecutiveFailures st + 1)).
Proof.
  intros Hinv. cbv zeta.
  assert (Hrej : rejects failureThreshold st now = false).
  { destruct (rejects failureThreshold st now) eqn:E; [| reflexivity].
    rewrite (Breaker_rejected _ _ _ res now' E) in Hinv.
    discriminate Hinv. }
  rewrite (Breaker_through _ _ _ res now' Hrej).
  unfold record_attempt.
  destruct res as [v [e|]]; cbn [fst snd invoked returned lastAttempt
                                 consecutiveFailures].
  - split; [reflexivity |]. split; [reflexivity |].
    split; [discriminate |]. intros _. split; [reflexivity |].
    intros Hc. apply wrap64_id.
    unfold in_range, min_int, max_int in *. lia.
  - split; [reflexivity |]. split; [reflexivity |].
    split; [| congruence]. intros _. split; [reflexivity |].
    intros Ht now2 res2 now2'. rewrite Breaker_through; [reflexivity |].
    unfold rejects. cbn [consecutiveFailures].
    rewrite wrap64_id
      by (unfold in_range, min_int, max_int in *; lia).
    destruct (Z.geb_spec (0 - failureThreshold) 0); [lia |].
    reflexivity.
Qed.

Lemma breaker_recovery_witness :
  let st' := fst (Breaker 3 (mkState 3 0) (3 * Second) ("ok", None)
                          (3 * Second)) in
  let rep := snd (Breaker 3 (mkState 3 0) (3 * Second) ("ok", None)
                          (3 * Second)) in
  returned rep = ("ok", None) /\ lastAttempt st' = 3 * Second /\
  (snd ("ok", @None error) = None ->
   consecutiveFailures st' = 0 /\
   (1 <= 3 <= max_int ->
    forall now2 res2 now2',
      invoked (snd (Breaker 3 st' now2 res2 now2')) = true)) /\
  (snd ("ok", @None error) <> None ->
   consecutiveFailures st' = wrap64 (3 + 1) /\
   (min_int <= 3 < max_int -> consecutiveFailures st' = 3 + 1)).
Proof.
  apply (breaker_recovery 3 (mkState 3 0) (3 * Second) ("ok", None)
           (3 * Second)).
  reflexivity.
Defined.

(** C9 as stated fails: with threshold 0 the breaker is open at
    [consecutiveFailures = 0] too. A trial call three seconds after
    the last attempt goes through and succeeds, the counter is 0, and
    the call one second later is rejected. *)
Lemma breaker_threshold_zero_rejects_after_success :
  let trial := Breaker 0 (init 0) (3 * Second) ("ok", None)
                       (3 * Second) in
  let next := Breaker 0 (fst trial) (4 * Second) ("ok", None)
                      (4 * Second) in
  snd trial = mkReply ("ok", None) true /\
  consecutiveFailures (fst trial) = 0 /\
  snd next = mkReply unreachable false.
Proof. cbv zeta. repeat split. Qed.

(** The scenario of the specification for threshold 3: three failing
    calls go through, a fourth one within two seconds is rejected, and
    one made later than that is a trial; after a successful trial the
    next call goes through at once. *)
Example breaker_scenario :
  let down := ("", Some (errorString "down")) in
  List.map invoked
    (snd (run 3 (init 0)
            [(1, down, 1); (2, down, 2); (3, down, 3);
             (3 + Second, down, 3 + Second);
             (3 + 2 * Second, down, 3 + 2 * Second);
             (4 + 2 * Second, ("ok", None), 4 + 2 * Second);
             (5 + 2 * Second, down, 5 + 2 * Second)]))
  = [true; true; true; false; false; true; true].
Proof. reflexivity. Qed.

(** *** Further properties of the breaker *)

Lemma rejects_closed failureThreshold st now :
  in_range (consecutiveFailures st - failureThreshold) ->
  consecutiveFailures st < failureThreshold ->
  rejects failureThreshold st now = false.
Proof.
  intros Hr Hlt. unfold rejects. rewrite wrap64_id by assumption.
  destruct (Z.geb_spec (consecutiveFailures st - failureThreshold) 0);
    [lia | reflexivity].
Qed.

Lemma rejects_open failureThreshold st now :
  0 <= consecutiveFailures st - failureThreshold <= 32 ->
  now <= lastAttempt st
         + 2 ^ (consecutiveFailures st - failureThreshold + 1) * Second ->
  rejects failureThreshold st now = true.
Proof.
  intros Hd Hnow. unfold rejects.
  rewrite wrap64_id by (unfold in_range, min_int, max_int; lia).
  rewrite backoff_exact by lia.
  destruct (Z.geb_spec (consecutiveFailures st - failureThreshold) 0);
    [| lia].
  destruct (Z.gtb_spec now
              (lastAttempt st
               + 2 ^ (consecutiveFailures st - failureThreshold + 1)
                 * Second)); [lia | reflexivity].
Qed.

(** X9. While the breaker is closed it never looks at the clock:
    starting with [c] failures counted, failing calls are all passed
    to the circuit, however fast they come, as long as their number
    and [c] together do not exceed the threshold; each one is counted
    and gets the circuit's own pair back. *)
Theorem breaker_closed_passes_failures (failureThreshold : Z)
    (calls : list (Z * result * Z)) (st : state) :
  0 <= consecutiveFailures st ->
  consecutiveFailures st + Z.of_nat (List.length calls)
    <= failureThreshold ->
  failureThreshold <= max_int ->
  List.Forall (fun c => failed (snd (fst c)) = true) calls ->
  snd (run failureThreshold st calls)
    = List.map (fun c => mkReply (snd (fst c)) true) calls /\
  consecutiveFailures (fst (run failureThreshold st calls))
    = consecutiveFailures st + Z.of_nat (List.length calls).
Proof.
  revert st. induction calls as [|[[now res] now'] calls IH];
    intros st Hc Hlen Hthr Hfail.
  - simpl. split; [reflexivity | lia].
  - simpl in Hlen. rewrite Nat2Z.inj_succ in Hlen.
    inversion Hfail as [|c cs Hres Hrest]; subst. simpl in Hres.
    destruct (RetryFacts.failed_inv res Hres) as (v & e & ->).
    cbn [run]. rewrite Breaker_through
      by (apply rejects_closed;
          [unfold in_range, min_int, max_int in *; lia | lia]).
    unfold record_attempt. cbn [fst snd].
    rewrite wrap64_id by (unfold in_range, min_int, max_int in *; lia).
    specialize (IH (mkState (consecutiveFailures st + 1) now')).
    cbn [consecutiveFailures] in IH.
    destruct IH as [IH1 IH2]; [lia | lia | assumption | assumption |].
    destruct (run failureThreshold
                (mkState (consecutiveFailures st + 1) now') calls)
      as [st2 reps] eqn:E.
    simpl in *. rewrite IH1, IH2. split; [reflexivity |].
    rewrite Nat2Z.inj_succ. lia.
Qed.

Lemma breaker_closed_passes_failures_witness :
  let down := ("", Some (errorString "down")) in
  snd (run 3 (init 0) [(1, down, 1); (1, down, 1); (1, down, 2)])
    = [mkReply down true; mkReply down true; mkReply down true] /\
  consecutiveFailures
    (fst (run 3 (init 0) [(1, down, 1); (1, down, 1); (1, down, 2)]))
    = 0 + 3.
Proof.
  cbv zeta.
  apply (breaker_closed_passes_failures 3
           [(1, ("", Some (errorString "down")), 1);
            (1, ("", Some (errorString "down")), 1);
            (1, ("", Some (errorString "down")), 2)] (init 0)).
  - simpl; lia.
  - simpl; lia.
  - unfold max_int; lia.
  - repeat constructor.
Defined.

(** X10. A rejected call changes nothing: while the breaker is open
    with [0 <= d <= 32], all the calls that come no later than
    [lastAttempt + 2^(d+1)] seconds get [service unreachable] without
    an invocation of the circuit, and the failure count and
    [lastAttempt] stay as they were, so the rejected calls do not
    prolong the backoff. *)
Theorem breaker_open_rejections_keep_state (failureThreshold : Z)
    (calls : list (Z * result * Z)) (st : state) :
  0 <= consecutiveFailures st - failureThreshold <= 32 ->
  List.Forall
    (fun c => fst (fst c)
              <= lastAttempt st
                 + 2 ^ (consecutiveFailures st - failureThreshold + 1)
                   * Second) calls ->
  run failureThreshold st calls
  = (st, List.map (fun _ => mkReply unreachable false) calls).
Proof.
  intros Hd. induction calls as [|[[now res] now'] calls IH]; intros Hall.
  - reflexivity.
  - inversion Hall as [|c cs Hnow Hrest]; subst. simpl in Hnow.
    cbn [run]. rewrite Breaker_rejected by (apply rejects_open; assumption).
    rewrite (IH Hrest). reflexivity.
Qed.

Lemma breaker_open_rejections_keep_state_witness :
  run 3 (mkState 4 0)
      [(1, ("ok", None), 1); (4 * Second, ("ok", None), 4 * Second)]
  = (mkState 4 0,
     [mkReply unreachable false; mkReply unreachable false]).
Proof.
  apply (breaker_open_rejections_keep_state 3
           [(1, ("ok", None), 1); (4 * Second, ("ok", None), 4 * Second)]
           (mkState 4 0)).
  - simpl; lia.
  - repeat constructor; simpl; unfold Second; lia.
Defined.

(** The counter after a run never exceeds the number of calls that
    reached the circuit. *)
Lemma run_counter_bounds failureThreshold :
  forall calls st,
    0 <= consecutiveFailures st ->
    consecutiveFailures st + Z.of_nat (List.length calls) <= max_int ->
    0 <= consecutiveFailures (fst (run failureThreshold st calls))
      <= consecutiveFailures st
         + Z.of_nat (List.length
                       (List.filter invoked
                          (snd (run failureThreshold st calls)))).
Proof.
  induction calls as [|[[now res] now'] calls IH]; intros st Hc Hlen.
  - simpl. lia.
  - simpl in Hlen. rewrite Nat2Z.inj_succ in Hlen. cbn [run].
    destruct (rejects failureThreshold st now) eqn:Hrej.
    + rewrite Breaker_rejected by assumption.
      specialize (IH st Hc ltac:(lia)).
      destruct (run failureThreshold st calls) as [st2 reps].
      simpl in *. lia.
    + rewrite Breaker_through by assumption.
      unfold record_attempt. destruct res as [v [e|]]; cbn [fst snd].
      * rewrite wrap64_id
          by (unfold in_range, min_int, max_int in *; lia).
        specialize (IH (mkState (consecutiveFailures st + 1) now')).
        cbn [consecutiveFailures] in IH.
        specialize (IH ltac:(lia) ltac:(lia)).
        destruct (run failureThreshold
                    (mkState (consecutiveFailures st + 1) now') calls)
          as [st2 reps].
        simpl in *. lia.
      * specialize (IH (mkState 0 now')).
        cbn [consecutiveFailures] in IH.
        specialize (IH ltac:(lia) ltac:(lia)).
        destruct (run failureThreshold (mkState 0 now') calls)
          as [st2 reps].
        simpl in *. lia.
Qed.

(** X11. From a fresh breaker, after any history of fewer than [2^63]
    calls, [consecutiveFailures] is not negative and not larger than
    the number of calls that were passed to the circuit; rejected calls
    are not counted as failures. *)
Theorem breaker_counter_bounds (failureThreshold : Z) (now0 : Z)
    (calls : list (Z * result * Z)) :
  Z.of_nat (List.length calls) <= max_int ->
  0 <= consecutiveFailures (fst (run failureThreshold (init now0) calls))
    <= Z.of_nat (List.length
                   (List.filter invoked
                      (snd (run failureThreshold (init now0) calls)))).
Proof.
  intros Hlen.
  pose proof (run_counter_bounds failureThreshold calls (init now0)) as L.
  simpl in L. apply L; lia.
Qed.

Lemma breaker_counter_bounds_witness :
  let down := ("", Some (errorString "down")) in
  let calls := [(1, down, 1); (2, down, 2); (3, down, 3); (4, down, 4)] in
  0 <= consecutiveFailures (fst (run 3 (init 0) calls))
    <= Z.of_nat (List.length
                   (List.filter invoked (snd (run 3 (init 0) calls)))).
Proof.
  cbv zeta.
  apply (breaker_counter_bounds 3 0).
  unfold max_int; simpl; lia.
Defined.

(** X12. Exponential backoff: when a trial call made with
    [0 <= d <= 31] fails, the wait before the next trial, counted from
    the new [lastAttempt], is twice the one before, and it starts at
    two seconds for [d = 0]. *)
Theorem breaker_failed_trial_doubles_backoff (failureThreshold : Z)
    (st : state) (now : Z) (v : string) (e : error) (now' : Z) :
  0 <= consecutiveFailures st - failureThreshold <= 31 ->
  0 <= consecutiveFailures st < max_int ->
  lastAttempt st
    + 2 ^ (consecutiveFailures st - failureThreshold + 1) * Second < now ->
  let st' := fst (Breaker failureThreshold st now (v, Some e) now') in
  invoked (snd (Breaker failureThreshold st now (v, Some e) now')) = true /\
  lastAttempt st' = now' /\
  backoff (consecutiveFailures st' - failureThreshold)
    = 2 * backoff (consecutiveFailures st - failureThreshold) /\
  backoff 0 = 2 * Second /\
  (forall now2 res2 now2',
     now2 <= now' + 2 * backoff (consecutiveFailures st - failureThreshold) ->
     Breaker failureThreshold st' now2 res2 now2'
     = (st', mkReply unreachable false)).
Proof.
  intros Hd Hmax Hnow. cbv zeta.
  assert (Hrej : rejects failureThreshold st now = false).
  { unfold rejects.
    rewrite wrap64_id by (unfold in_range, min_int, max_int; lia).
    rewrite backoff_exact by lia.
    destruct (Z.gtb_spec now
                (lastAttempt st
                 + 2 ^ (consecutiveFailures st - failureThreshold + 1)
                   * Second)); [| lia].
    apply andb_false_r. }
  rewrite (Breaker_through _ _ _ (v, Some e) now' Hrej).
  unfold record_attempt. cbn [fst snd invoked lastAttempt
                              consecutiveFailures].
  assert (Hin : in_range (consecutiveFailures st + 1)).
  { unfold in_range, min_int, max_int in *. lia. }
  rewrite (wrap64_id _ Hin).
  assert (Hdbl : backoff (consecutiveFailures st + 1 - failureThreshold)
                 = 2 * backoff (consecutiveFailures st - failureThreshold)).
  { rewrite !backoff_exact by lia.
    replace (consecutiveFailures st + 1 - failureThreshold + 1)
      with (consecutiveFailures st - failureThreshold + 1 + 1) by lia.
    rewrite (Z.pow_add_r 2 (consecutiveFailures st - failureThreshold + 1) 1)
      by lia.
    lia. }
  split; [reflexivity |]. split; [reflexivity |].
  split; [exact Hdbl |]. split.
  - rewrite backoff_exact by lia. reflexivity.
  - intros now2 res2 now2' Hle.
    apply Breaker_rejected, rejects_open;
      cbn [consecutiveFailures lastAttempt]; [lia |].
    rewrite <- backoff_exact by lia. rewrite Hdbl. exact Hle.
Qed.

Lemma breaker_failed_trial_doubles_backoff_witness :
  let st := mkState 3 0 in
  let st' := fst (Breaker 3 st (3 * Second) ("", Some (errorString "down"))
                          (3 * Second)) in
  invoked (snd (Breaker 3 st (3 * Second)
                        ("", Some (errorString "down")) (3 * Second)))
    = true /\
  lastAttempt st' = 3 * Second /\
  backoff (consecutiveFailures st' - 3)
    = 2 * backoff (consecutiveFailures st - 3) /\
  backoff 0 = 2 * Second /\
  (forall now2 res2 now2',
     now2 <= 3 * Second + 2 * backoff (consecutiveFailures st - 3) ->
     Breaker 3 st' now2 res2 now2' = (st', mkReply unreachable false)).
Proof.
  cbv zeta.
  apply (breaker_failed_trial_doubles_backoff 3 (mkState 3 0) (3 * Second)
           "" (errorString "down") (3 * Second)).
  - simpl; lia.
  - unfold max_int; simpl; lia.
  - unfold Second; simpl; lia.
Defined.

End BreakerFacts.

(** ** Debounce, second version *)

Module Debounce2Facts.
Import Debounce2.

Lemma inv_init now n : inv (init now n).
Proof.
  left. unfold idle, init; simpl. repeat split.
  intros i pc H. apply lookup_replicate in H. tauto.
Qed.

(** Caller [i] moves from a holding statement to another one and
    touches neither [m], the Once, the counter nor the goroutines. *)
Lemma seized_move s s' i pc pc' :
  mu s = true -> once_done s = false -> executed s = 0%nat ->
  (forall j q, goroutines s !! j = Some q -> q = gLock) ->
  callers s !! i = Some pc ->
  (forall j q, j <> i -> callers s !! j = Some q -> q = cLock) ->
  holding pc' ->
  mu s' = true -> once_done s' = false -> executed s' = 0%nat ->
  (forall j q, goroutines s' !! j = Some q -> q = gLock) ->
  callers s' = <[i := pc']> (callers s) ->
  seized s'.
Proof.
  intros Hmu Ho He Hg Hi Hothers Hpc' Hmu' Ho' He' Hg' Hc'.
  unfold seized. repeat split; try assumption.
  exists i, pc'. rewrite Hc'. repeat split.
  - apply list_lookup_insert_eq. eapply lookup_lt_Some; eassumption.
  - assumption.
  - intros j q Hj Hq. rewrite list_lookup_insert_ne in Hq by congruence.
    eapply Hothers; eassumption.
Qed.

Lemma inv_step d l s s' : inv s -> step d l s = Some s' -> inv s'.
Proof.
  intros [Hidle | Hseized] Hstep.
  - (* nobody has the mutex: only a caller at line 75 can move *)
    destruct Hidle as (Hmu & Ho & He & Hg & Hc).
    destruct l as [i e | j]; simpl in Hstep.
    + destruct (callers s !! i) as [pc|] eqn:Hi; [| discriminate].
      pose proof (Hc i pc Hi) as ->. simpl in Hstep.
      unfold lock_caller in Hstep. rewrite Hmu in Hstep.
      injection Hstep as <-. right.
      unfold seized; simpl. repeat split; try assumption.
      * rewrite Hg. intros j q Hq. discriminate Hq.
      * exists i, cSetThreshold. repeat split.
        -- apply list_lookup_insert_eq.
           eapply lookup_lt_Some; eassumption.
        -- intros j q Hj Hq.
           rewrite list_lookup_insert_ne in Hq by congruence.
           eapply Hc; eassumption.
    + rewrite Hg in Hstep. discriminate Hstep.
  - destruct Hseized as (Hmu & Ho & He & Hg & i & pc & Hi & Hpc & Hc).
    destruct l as [k e | j]; simpl in Hstep.
    + destruct (callers s !! k) as [q|] eqn:Hk; [| discriminate].
      destruct (Nat.eq_dec k i) as [-> | Hne].
      * (* the holder moves *)
        assert (q = pc) as -> by congruence.
        right.
        destruct pc; simpl in Hpc; try contradiction;
          simpl in Hstep; unfold lock_caller in Hstep;
          rewrite ?Hmu, ?Ho in Hstep; try discriminate.
        -- injection Hstep as <-.
           eapply (seized_move s _ i); eauto; simpl; auto.
        -- injection Hstep as <-.
           eapply (seized_move s _ i); eauto; simpl; auto.
        -- injection Hstep as <-.
           eapply (seized_move s _ i); eauto; simpl; auto.
        -- injection Hstep as <-.
           eapply (seized_move s _ i _ cSelect); eauto; simpl; auto.
           intros j q Hq. apply lookup_app_Some in Hq.
           destruct Hq as [Hq | [_ Hq]]; [eauto |].
           apply list_lookup_singleton_Some in Hq. symmetry; tauto.
        -- destruct (chosen e) as [|cerr].
           ++ destruct (ticking s); [| discriminate].
              injection Hstep as <-.
              eapply (seized_move s _ i); eauto; simpl; auto.
           ++ injection Hstep as <-.
              eapply (seized_move s _ i _ (cDoneLock cerr));
                eauto; simpl; auto.
      * (* anybody else stands at line 75 and cannot take m *)
        pose proof (Hc k q Hne Hk) as ->. simpl in Hstep.
        unfold lock_caller in Hstep. rewrite Hmu in Hstep.
        discriminate Hstep.
    + destruct (goroutines s !! j) as [q|] eqn:Hj; [| discriminate].
      pose proof (Hg j q Hj) as ->. simpl in Hstep.
      rewrite Hmu in Hstep. discriminate Hstep.
Qed.

Lemma inv_run d ls : forall s s', inv s -> run d ls s = Some s' -> inv s'.
Proof.
  induction ls as [|l ls IH]; intros s s' Hs Hrun; simpl in Hrun.
  - injection Hrun as <-. assumption.
  - destruct (step d l s) as [s1|] eqn:Hstep; [| discriminate].
    eapply IH; [| eassumption]. eapply inv_step; eassumption.
Qed.

Lemma inv_no_return s :
  inv s ->
  executed s = 0%nat /\
  forall i pc, callers s !! i = Some pc -> has_returned pc = false.
Proof.
  intros [(Hmu & Ho & He & Hg & Hc) |
          (Hmu & Ho & He & Hg & i & pc & Hi & Hpc & Hc)].
  - split; [assumption |]. intros i pc Hi.
    rewrite (Hc i pc Hi). reflexivity.
  - split; [assumption |]. intros j q Hj.
    destruct (Nat.eq_dec j i) as [-> | Hne].
    + assert (q = pc) as -> by congruence.
      destruct pc; simpl in Hpc; try contradiction; reflexivity.
    + rewrite (Hc j q Hne Hj). reflexivity.
Qed.

(** C5 on the code. Whatever the number of invocations, the cooldown,
    the schedule and the environment, in no state the function can
    reach has an invocation returned, and the circuit has not been
    executed: the first caller to take [m] keeps it while it polls
    inside [once.Do], and the polling loop needs [m] again. *)
Theorem debounce2_never_returns (d now : Z) (n : nat) (s : state) :
  reachable d (init now n) s ->
  executed s = 0%nat /\
  forall i pc, callers s !! i = Some pc -> has_returned pc = false.
Proof.
  intros [ls Hrun]. apply inv_no_return.
  eapply inv_run; [apply inv_init | eassumption].
Qed.

Lemma debounce2_never_returns_witness :
  executed deadlocked = 0%nat /\
  forall i pc, callers deadlocked !! i = Some pc ->
               has_returned pc = false.
Proof.
  apply (debounce2_never_returns 100 0 1 deadlocked).
  exists first_tick_schedule. reflexivity.
Defined.

(** In that state the caller waits at line 96 for the mutex it took
    at line 75, the goroutine waits for it at line 85, and nothing
    can move any more. *)
Lemma debounce2_first_call_deadlocks :
  run 100 first_tick_schedule (init 0 1) = Some deadlocked /\
  stuck 100 deadlocked.
Proof.
  split; [reflexivity |].
  intros [i e | j]; simpl.
  - destruct i as [|i]; reflexivity.
  - destruct j as [|j]; reflexivity.
Qed.

(** *** Further properties of the second version *)

Lemma sum_rank_holder (l : list caller_pc) : forall i pc,
  l !! i = Some pc ->
  (forall j q, j <> i -> l !! j = Some q -> q = cLock) ->
  sum_list (rank <$> l) = rank pc.
Proof.
  induction l as [|x l IH]; intros i pc Hi Hothers; [discriminate |].
  destruct i as [|i]; simpl in *.
  - injection Hi as ->.
    assert (E : sum_list (rank <$> l) = 0%nat).
    { clear IH. induction l as [|y l IHl]; [reflexivity |].
      simpl. rewrite (Hothers 1%nat y) by (auto; reflexivity). simpl.
      apply IHl. intros j q Hj Hq. destruct j as [|j]; [congruence |].
      apply (Hothers (S (S j)) q); [lia | exact Hq]. }
    unfold fmap in *. simpl in *. rewrite E. lia.
  - rewrite (Hothers 0%nat x) by (auto; reflexivity). simpl.
    apply (IH i pc Hi). intros j q Hj Hq.
    apply (Hothers (S j) q); [lia | exact Hq].
Qed.

Lemma sum_rank_moved (l : list caller_pc) i pc pc' :
  l !! i = Some pc ->
  (forall j q, j <> i -> l !! j = Some q -> q = cLock) ->
  sum_list (rank <$> <[i := pc']> l) = rank pc'.
Proof.
  intros Hi Hothers. apply (sum_rank_holder _ i pc').
  - apply list_lookup_insert_eq. eapply lookup_lt_Some; eassumption.
  - intros j q Hj Hq. rewrite list_lookup_insert_ne in Hq by congruence.
    eapply Hothers; eassumption.
Qed.

(** Every step uses up one of the statements that are left, and keeps
    the ticker and the clean-up goroutine where they are. *)
Lemma step_counts_down d l s s' :
  inv s -> leaking s -> step d l s = Some s' ->
  steps_left s = S (steps_left s') /\ leaking s'.
Proof.
  intros [Hidle | Hseized] [Htick Hgor] Hstep.
  - destruct Hidle as (Hmu & Ho & He & Hg & Hc).
    destruct l as [i e | j]; simpl in Hstep.
    + destruct (callers s !! i) as [pc|] eqn:Hi; [| discriminate].
      pose proof (Hc i pc Hi) as ->. simpl in Hstep.
      unfold lock_caller in Hstep. rewrite Hmu in Hstep.
      injection Hstep as <-.
      assert (E : sum_list (rank <$> <[i := cSetThreshold]> (callers s))
                  = 5%nat).
      { apply (sum_rank_moved _ i cLock); [assumption |].
        intros j q _ Hq. eapply Hc; eassumption. }
      unfold steps_left, leaking in *. rewrite Hmu in *. simpl.
      unfold steps_left; simpl. rewrite E. simpl in *. auto.
    + rewrite Hg in Hstep. discriminate Hstep.
  - destruct Hseized as (Hmu & Ho & He & Hg & i & pc & Hi & Hpc & Hc).
    pose proof (sum_rank_holder _ i pc Hi Hc) as Hsum.
    unfold leaking, steps_left in Htick, Hgor.
    rewrite Hmu, Hsum in Htick, Hgor.
    destruct l as [k e | j]; simpl in Hstep.
    + destruct (callers s !! k) as [q|] eqn:Hk; [| discriminate].
      destruct (Nat.eq_dec k i) as [-> | Hne].
      * assert (q = pc) as -> by congruence.
        destruct pc; simpl in Hpc; try contradiction;
          simpl in Hstep; unfold lock_caller in Hstep;
          rewrite ?Hmu, ?Ho in Hstep; try discriminate;
          simpl in Htick, Hgor.
        -- injection Hstep as <-.
           unfold steps_left, leaking; simpl. unfold steps_left; simpl.
           rewrite Hmu, Hsum, (sum_rank_moved _ i _ cOnce Hi Hc).
           simpl. auto.
        -- injection Hstep as <-.
           unfold steps_left, leaking; simpl. unfold steps_left; simpl.
           rewrite Hmu, Hsum, (sum_rank_moved _ i _ cNewTicker Hi Hc).
           simpl. auto.
        -- injection Hstep as <-.
           unfold steps_left, leaking; simpl. unfold steps_left; simpl.
           rewrite Hmu, Hsum, (sum_rank_moved _ i _ cSpawn Hi Hc).
           simpl. auto.
        -- injection Hstep as <-.
           unfold steps_left, leaking; simpl. unfold steps_left; simpl.
           rewrite Hmu, Hsum, (sum_rank_moved _ i _ cSelect Hi Hc).
           simpl. rewrite Hgor. auto.
        -- destruct (chosen e) as [|cerr].
           ++ destruct (ticking s) eqn:Ht; [| discriminate].
              injection Hstep as <-.
              unfold steps_left, leaking; simpl. unfold steps_left; simpl.
              rewrite Hmu, Hsum, (sum_rank_moved _ i _ cTickLock Hi Hc).
              simpl. auto.
           ++ injection Hstep as <-.
              unfold steps_left, leaking; simpl. unfold steps_left; simpl.
              rewrite Hmu, Hsum,
                (sum_rank_moved _ i _ (cDoneLock cerr) Hi Hc).
              simpl. auto.
      * pose proof (Hc k q Hne Hk) as ->. simpl in Hstep.
        unfold lock_caller in Hstep. rewrite Hmu in Hstep.
        discriminate Hstep.
    + destruct (goroutines s !! j) as [q|] eqn:Hj; [| discriminate].
      pose proof (Hg j q Hj) as ->. simpl in Hstep.
      rewrite Hmu in Hstep. discriminate Hstep.
Qed.

Lemma run_counts_down d ls : forall s s',
  inv s -> leaking s -> run d ls s = Some s' ->
  steps_left s = (List.length ls + steps_left s')%nat /\
  inv s' /\ leaking s'.
Proof.
  induction ls as [|l ls IH]; intros s s' Hs Hl Hrun; simpl in Hrun.
  - injection Hrun as <-. auto.
  - destruct (step d l s) as [s1|] eqn:Hstep; [| discriminate].
    destruct (step_counts_down d l s s1 Hs Hl Hstep) as [H1 Hl1].
    destruct (IH s1 s' (inv_step d l s s1 Hs Hstep) Hl1 Hrun)
      as (H2 & H3 & H4).
    split; [rewrite H1, H2; reflexivity | split; assumption].
Qed.

Lemma leaking_init now n : leaking (init now n).
Proof. split; reflexivity. Qed.

(** With nothing left to execute, nothing can move. *)
Lemma exhausted_stuck d s :
  inv s -> steps_left s = 0%nat -> stuck d s.
Proof.
  intros [Hidle | Hseized] Hz.
  - destruct Hidle as (Hmu & _). unfold steps_left in Hz.
    rewrite Hmu in Hz. discriminate Hz.
  - destruct Hseized as (Hmu & Ho & He & Hg & i & pc & Hi & Hpc & Hc).
    pose proof (sum_rank_holder _ i pc Hi Hc) as Hsum.
    unfold steps_left in Hz. rewrite Hmu, Hsum in Hz.
    intros [k e | j]; simpl.
    + destruct (callers s !! k) as [q|] eqn:Hk; [| reflexivity].
      destruct (Nat.eq_dec k i) as [-> | Hne].
      * assert (q = pc) as -> by congruence.
        destruct pc; simpl in Hpc; try contradiction;
          try discriminate Hz; simpl; unfold lock_caller;
          rewrite Hmu; reflexivity.
      * rewrite (Hc k q Hne Hk). simpl. unfold lock_caller.
        rewrite Hmu. reflexivity.
    + destruct (goroutines s !! j) as [q|] eqn:Hj; [| reflexivity].
      rewrite (Hg j q Hj). simpl. rewrite Hmu. reflexivity.
Qed.

(** X15. The wrapper comes to a halt after six statements: whatever
    the number of invocations, the schedule and the environment, no
    more than six steps can be taken in all (the first caller's lines
    75 to 94), every schedule of six steps ends in a state where no
    caller and no goroutine can move, and this deadlock cannot be
    avoided: after fewer than six steps the caller that holds [m] can
    always go on. *)
Theorem debounce2_halts_after_six_steps (d now : Z) (n : nat)
    (ls : list label) (s : state) :
  run d ls (init now n) = Some s ->
  (List.length ls <= 6)%nat /\
  (List.length ls = 6%nat -> stuck d s) /\
  (0 < List.length ls < 6 ->
   exists i e s', step d (CallerStep i e) s = Some s')%nat.
Proof.
  intros Hrun.
  destruct (run_counts_down d ls _ _ (inv_init now n)
              (leaking_init now n) Hrun) as (Hlen & Hinv & Hleak).
  change (steps_left (init now n)) with 6%nat in Hlen.
  split; [lia |]. split.
  - intros H6. apply exhausted_stuck; [assumption | lia].
  - intros Hlt. destruct Hinv as [Hidle | Hseized].
    + destruct Hidle as (Hmu & _). unfold steps_left in Hlen.
      rewrite Hmu in Hlen. lia.
    + destruct Hseized as (Hmu & Ho & He & Hg & i & pc & Hi & Hpc & Hc).
      pose proof (sum_rank_holder _ i pc Hi Hc) as Hsum.
      destruct Hleak as [Htick _].
      unfold steps_left in Hlen, Htick. rewrite Hmu, Hsum in Hlen, Htick.
      exists i, (mkEnv 0 Tick ("", None)). simpl. rewrite Hi.
      destruct pc; simpl in Hpc; try contradiction; simpl in Hlen;
        try lia; simpl; eauto.
      simpl in Htick. rewrite Htick. eauto.
Qed.

Lemma debounce2_halts_after_six_steps_witness :
  (List.length first_tick_schedule <= 6)%nat /\
  (List.length first_tick_schedule = 6%nat -> stuck 100 deadlocked) /\
  (0 < List.length first_tick_schedule < 6 ->
   exists i e s', step 100 (CallerStep i e) deadlocked = Some s')%nat.
Proof.
  apply (debounce2_halts_after_six_steps 100 0 1 first_tick_schedule
           deadlocked).
  reflexivity.
Defined.

(** X16. The clean-up never happens: in every state the wrapper can
    reach there is at most one goroutine of lines 84-91 and it still
    waits for [m] at line 85, so [ticker.Stop()] and the reset of the
    Once are never executed, and once the ticker has been created it
    keeps ticking. *)
Theorem debounce2_cleanup_never_runs (d now : Z) (n : nat) (s : state) :
  reachable d (init now n) s ->
  (goroutines s = [] \/ goroutines s = [gLock]) /\
  (goroutines s = [gLock] -> ticking s = true) /\
  once_done s = false.
Proof.
  intros [ls Hrun].
  destruct (run_counts_down d ls _ _ (inv_init now n)
              (leaking_init now n) Hrun) as (_ & Hinv & Htick & Hgor).
  assert (Ho : once_done s = false)
    by (destruct Hinv as [(_ & Ho & _) | (_ & Ho & _)]; exact Ho).
  rewrite Hgor, Htick.
  destruct (mu s); simpl; [| split; [auto | split; [discriminate | exact Ho]]].
  destruct (steps_left s) as [|[|[|k]]]; simpl;
    (split; [auto | split; [auto; discriminate | exact Ho]]).
Qed.

Lemma debounce2_cleanup_never_runs_witness :
  (goroutines deadlocked = [] \/ goroutines deadlocked = [gLock]) /\
  (goroutines deadlocked = [gLock] -> ticking deadlocked = true) /\
  once_done deadlocked = false.
Proof.
  apply (debounce2_cleanup_never_runs 100 0 1 deadlocked).
  exists first_tick_schedule. reflexivity.
Defined.

End Debounce2Facts.
